(** * NPV / IRR solver and GBM path grid: a shallow embedding over binary64

    The two scripts of the repository compute with Python [float]s, that
    is IEEE-754 binary64 numbers.  They are modelled here with Rocq's
    primitive floats ([PrimFloat]), whose operations are the hardware
    ones and are specified by [SpecFloat].  Python raises where IEEE
    arithmetic would return an infinity or a NaN (a float division by
    zero, an overflowing power), so fallible operations live in a small
    error monad [result]. *)

From Stdlib Require Import ZArith List Bool Lia Floats Sorted.
Import ListNotations.

Set Warnings "-inexact-float,-abstract-large-number".

Open Scope float_scope.

(** ** Exceptions and the error monad *)

Inductive exn : Set :=
| ZeroDivisionError
| OverflowError
| UnboundLocalError
| IndexError.

(** [Diverge] is not a Python exception: it marks a run of the model whose
    loop bound (fuel) ran out while the Python loop would still be running. *)
Inductive result (A : Type) : Type :=
| Ok (a : A)
| Raise (e : exn)
| Diverge.

Arguments Ok {A} a.
Arguments Raise {A} e.
Arguments Diverge {A}.

Definition bind {A B : Type} (m : result A) (k : A -> result B) : result B :=
  match m with
  | Ok a => k a
  | Raise e => Raise e
  | Diverge => Diverge
  end.

Declare Scope py_scope.
Delimit Scope py_scope with py.
Notation "x <- m ;; k" := (bind m (fun x => k))
  (at level 61, m at next level, right associativity) : py_scope.
Notation "' pat <- m ;; k" := (bind m (fun x => match x with pat => k end))
  (at level 61, pat pattern, m at next level, right associativity) : py_scope.
Open Scope py_scope.

Fixpoint foldM {A B : Type} (f : A -> B -> result A) (l : list B) (a : A)
  : result A :=
  match l with
  | [] => Ok a
  | x :: l' => a' <- f a x ;; foldM f l' a'
  end.

Fixpoint mapM {A B : Type} (f : A -> result B) (l : list A) : result (list B) :=
  match l with
  | [] => Ok []
  | x :: l' => y <- f x ;; ys <- mapM f l' ;; Ok (y :: ys)
  end.

(** ** Python's float operators *)

Module PyFloat.

(** [a / b] on floats: CPython's [float_div] raises when [b == 0.0]
    (either zero; a NaN divisor compares unequal and goes through). *)
Definition truediv (a b : float) : result float :=
  if b =? 0 then Raise ZeroDivisionError else Ok (a / b).

(** The C library's [pow(x, t)] for a finite [x > 0] and an integer
    [t > 0], taken as correctly rounded (IEEE-754 [pown]): the exact
    power [m^t * 2^(e*t)] of [x = m * 2^e] rounded once to nearest-even,
    an infinity on overflow.  It is exact at [t = 1].  A C library's [pow]
    is accurate to within one unit in the last place and may differ from
    this value in the last bit when [t >= 2]; what is proved below for all
    inputs rests on the sign of a power, on whether it is zero or
    infinite, and on its value at [t <= 1], not on its last bit. *)
Definition libm_pow (x : float) (t : nat) : float :=
  match Prim2SF x with
  | S754_finite _ m e =>
      SF2Prim (binary_normalize prec emax
                 (Z.pow (Zpos m) (Z.of_nat t)) (e * Z.of_nat t)%Z false)
  | _ => x
  end.

(** [v ** t] for a float [v] and a non-negative integer [t], after
    CPython's [float_pow]: the special cases are decided before libm is
    called, and an infinite result of libm is an [OverflowError]. *)
Definition pow (v : float) (t : nat) : result float :=
  match t with
  | O => Ok 1
  | S _ =>
      if is_nan v then Ok v
      else if is_infinity v then Ok (if Nat.odd t then v else abs v)
      else if v =? 0 then Ok (if Nat.odd t then v else 0)
      else
        let negate_result := (v <? 0) && Nat.odd t in
        let iv := if v <? 0 then - v else v in
        if iv =? 1 then Ok (if negate_result then -1 else 1)
        else
          let ix := libm_pow iv t in
          if is_infinity ix then Raise OverflowError
          else Ok (if negate_result then - ix else ix)
  end.

End PyFloat.

(** ** project2.py: NPV and IRR *)

(** One pass of the loop of [npv]:
    [total_value += cash_flows[t] / ((1 + rate) ** t)]. *)
Definition npv_step (rate : float) (cash_flows : list float)
    (total_value : float) (t : nat) : result float :=
  d <- PyFloat.pow (1 + rate) t ;;
  q <- PyFloat.truediv (nth t cash_flows 0) d ;;
  Ok (total_value + q).

Definition npv (rate : float) (cash_flows : list float) : result float :=
  foldM (npv_step rate cash_flows) (seq 0 (length cash_flows)) 0.

(** The local variables of [irr_bisection_interval] while its loop runs;
    [mid] is unbound until the first pass. *)
Record bisect_state : Set := mk_bisect_state {
  low : float;
  high : float;
  npv_low : float;
  npv_high : float;
  mid : option float
}.

(** One pass of the [for] loop: either [return mid] ([inl]) or the updated
    variables ([inr]). *)
Definition bisect_body (cash_flows : list float) (tol : float)
    (s : bisect_state) : result (float + bisect_state) :=
  let mid' := (low s + high s) / 2 in
  npv_mid <- npv mid' cash_flows ;;
  if abs npv_mid <? tol then Ok (inl mid')
  else if npv_low s * npv_mid <? 0 then
    Ok (inr (mk_bisect_state (low s) mid' (npv_low s) npv_mid (Some mid')))
  else
    Ok (inr (mk_bisect_state mid' (high s) npv_mid (npv_high s) (Some mid'))).

(** [for x in range(max_iter): ...] followed by [return mid]. *)
Fixpoint bisect_loop (cash_flows : list float) (tol : float) (max_iter : nat)
    (s : bisect_state) : result (option float) :=
  match max_iter with
  | O => match mid s with
         | Some m => Ok (Some m)
         | None => Raise UnboundLocalError
         end
  | S n =>
      r <- bisect_body cash_flows tol s ;;
      match r with
      | inl m => Ok (Some m)
      | inr s' => bisect_loop cash_flows tol n s'
      end
  end.

Definition irr_bisection_interval (cash_flows : list float) (low high : float)
    (tol : float) (max_iter : nat) : result (option float) :=
  npv_low <- npv low cash_flows ;;
  npv_high <- npv high cash_flows ;;
  if 0 <? npv_low * npv_high then Ok None
  else bisect_loop cash_flows tol max_iter
         (mk_bisect_state low high npv_low npv_high None).

(** The same call with [max_iter] a Python [int]: [range(max_iter)] is
    empty for a negative one, as it is for zero. *)
Definition irr_bisection_interval_int (cash_flows : list float)
    (low high : float) (tol : float) (max_iter : Z) : result (option float) :=
  irr_bisection_interval cash_flows low high tol (Z.to_nat max_iter).

Definition default_tol : float := 1e-6.
Definition default_max_iter : nat := 1000.

(** [while r <= rate_max: rates.append(r); r += step], the appended rates
    in order; [None] when the fuel runs out first. *)
Fixpoint rate_grid (fuel : nat) (r rate_max step : float) : option (list float) :=
  match fuel with
  | O => None
  | S fuel' =>
      if r <=? rate_max then
        match rate_grid fuel' (r + step) rate_max step with
        | Some rates => Some (r :: rates)
        | None => None
        end
      else Some []
  end.

(** [for i in range(len(rates) - 1)]: the adjacent pairs of the grid whose
    NPVs have a negative product. *)
Fixpoint sign_change_intervals (rates npv_values : list float)
  : list (float * float) :=
  match rates, npv_values with
  | r0 :: (r1 :: _) as rates', v0 :: (v1 :: _) as npv_values' =>
      if v0 * v1 <? 0
      then (r0, r1) :: sign_change_intervals rates' npv_values'
      else sign_change_intervals rates' npv_values'
  | _, _ => []
  end.

(** [for low, high in intervals: ...], appending each numeric answer. *)
Fixpoint collect_irrs (cash_flows : list float) (intervals : list (float * float))
  : result (list float) :=
  match intervals with
  | [] => Ok []
  | (low, high) :: rest =>
      irr <- irr_bisection_interval cash_flows low high default_tol default_max_iter ;;
      irrs <- collect_irrs cash_flows rest ;;
      Ok (match irr with Some r => r :: irrs | None => irrs end)
  end.

Definition find_all_irrs (fuel : nat) (cash_flows : list float)
    (rate_min rate_max step : float)
  : result (list float * list float * list float) :=
  match rate_grid fuel rate_min rate_max step with
  | None => Diverge
  | Some rates =>
      npv_values <- mapM (fun r => npv r cash_flows) rates ;;
      let intervals := sign_change_intervals rates npv_values in
      irrs <- collect_irrs cash_flows intervals ;;
      Ok (irrs, rates, npv_values)
  end.

Definition default_rate_min : float := -0.99.
Definition default_rate_max : float := 10.0.
Definition default_step : float := 0.001.

(** The rates the default call appends: 10991 of them, from -0.99 up to
    the last one not above 10.0. *)
Definition default_rates : list float :=
  Eval vm_compute in
    match rate_grid 10992 default_rate_min default_rate_max default_step with
    | Some rates => rates
    | None => []
    end.

(** The variables of [irr_bisection_interval] at the start of pass [k] of
    its loop, [None] when an earlier pass returned. *)
Fixpoint bisect_state_at (cash_flows : list float) (tol : float) (k : nat)
    (s : bisect_state) : result (option bisect_state) :=
  match k with
  | O => Ok (Some s)
  | S k' =>
      r <- bisect_body cash_flows tol s ;;
      match r with
      | inl _ => Ok None
      | inr s' => bisect_state_at cash_flows tol k' s'
      end
  end.

(** The sum of the spec, [c[0]/d[0] + ... + c[n-1]/d[n-1]] taken in this
    order from [0.0], for discount factors [d[t] = (1 + r) ** t]. *)
Fixpoint discounted_sum (c d : nat -> float) (n : nat) : float :=
  match n with
  | O => 0
  | S k => discounted_sum c d k + c k / d k
  end.

(** ** project1.py: the GBM price grid *)

(** [a[i] = v] and [a[i]] on a list, raising when [i] is out of range. *)
Fixpoint update {A : Type} (a : list A) (i : nat) (v : A) : list A :=
  match a, i with
  | [], _ => []
  | _ :: a', O => v :: a'
  | x :: a', S i' => x :: update a' i' v
  end.

Definition setitem {A : Type} (a : list A) (i : nat) (v : A) : result (list A) :=
  if (i <? length a)%nat then Ok (update a i v) else Raise IndexError.

Definition getitem {A : Type} (a : list A) (i : nat) : result A :=
  match nth_error a i with
  | Some v => Ok v
  | None => Raise IndexError
  end.

(** [int(x)] for a finite float [x]: truncation toward zero. *)
Definition int_of_float (x : float) : Z :=
  match Prim2SF x with
  | S754_finite s m e => cond_Zopp s (Z.shiftl (Zpos m) e)
  | _ => 0%Z
  end.

Module Project1.

Definition S0 : float := 100.
Definition mu : float := 0.08.
Definition sigma : float := 0.20.
Definition T : float := 1.0.
Definition N : nat := 1000.
Definition dt : float := 1 / 252.
Definition steps : nat := Z.to_nat (int_of_float (T / dt)).

Section Paths.

(** numpy's elementwise [exp], and the drawn shocks: [Z t i] is
    [Z[t, i]] of the array of shape [(steps, N)]. *)
Variable np_exp : float -> float.
Variable Z : nat -> nat -> float.

Definition Z_row (t : nat) : list float := map (Z t) (seq 0 N).

(** [np.zeros((rows, cols))] *)
Definition zeros (rows cols : nat) : list (list float) :=
  repeat (repeat 0 cols) rows.

(** [prev * np.exp((mu - 0.5 * sigma**2) * dt + sigma * np.sqrt(dt) * shocks)],
    elementwise on two rows of the same length. *)
Definition next_row (prev shocks : list float) : result (list float) :=
  sigma2 <- PyFloat.pow sigma 2 ;;
  Ok (map (fun pz => fst pz * np_exp ((mu - 0.5 * sigma2) * dt
                                     + sigma * sqrt dt * snd pz))
        (combine prev shocks)).

(** One pass of the loop: [S[t] = S[t - 1] * np.exp(...)]. *)
Definition gbm_step (S : list (list float)) (t : nat) : result (list (list float)) :=
  prev <- getitem S (t - 1) ;;
  row <- next_row prev (Z_row (t - 1)) ;;
  setitem S t row.

Definition S : result (list (list float)) :=
  S_init <- setitem (zeros (steps + 1) N) 0 (repeat S0 N) ;;
  foldM gbm_step (seq 1 steps) S_init.

End Paths.

End Project1.

(** ** project2.py: the script below the functions *)

Module Project2.

(** [discount_rates] and the table [[npv(r, cash_flows) for r in discount_rates]]. *)
Definition discount_rates : list float := [0.0; 0.05; 0.10; 0.15; 0.20].

Definition npv_values_table (cash_flows : list float) : result (list float) :=
  mapM (fun r => npv r cash_flows) discount_rates.

(** [[r for r in rates if -0.1 <= r <= 10.0]] and the NPVs evaluated again
    on it for the profile plot. *)
Definition in_plot_range (r : float) : bool := (-0.1 <=? r) && (r <=? 10.0).

Definition plot_rates (rates : list float) : list float :=
  filter in_plot_range rates.

Definition plot_npvs (cash_flows rates : list float) : result (list float) :=
  mapM (fun r => npv r cash_flows) (plot_rates rates).

End Project2.

(** ** project1.py: final prices and option payoffs *)

Module Project1Payoff.

Definition K : float := 105.

(** [a[-1]]: the last row, an IndexError when there is none. *)
Definition getitem_last {A : Type} (a : list A) : result A :=
  match a with
  | [] => Raise IndexError
  | _ :: _ => getitem a (length a - 1)
  end.

(** numpy's [maximum] on two floats: a NaN operand is returned (the first
    one when both are), otherwise the larger operand, and the second one
    when the two compare equal: [maximum(-0.0, 0.0)] is [0.0]. *)
Definition np_maximum (a b : float) : float :=
  if is_nan a then a else if is_nan b then b else if a <=? b then b else a.

Section Payoffs.

Variable np_exp : float -> float.
Variable Z : nat -> nat -> float.

(** [final_prices = S[-1]] *)
Definition final_prices : result (list float) :=
  S <- Project1.S np_exp Z ;; getitem_last S.

(** [payoffs = np.maximum(final_prices - K, 0)], elementwise. *)
Definition payoffs : result (list float) :=
  final_prices <- final_prices ;;
  Ok (map (fun p => np_maximum (p - K) 0) final_prices).

End Payoffs.

End Project1Payoff.

(** ** Vocabulary of the statements *)

(** The value of [x ** t], zero when the power raises. *)
Definition pow_or_zero (x : float) (t : nat) : float :=
  match PyFloat.pow x t with Ok v => v | _ => 0 end.

(** The midpoint the loop computes from a state. *)
Definition midpoint (s : bisect_state) : float := (low s + high s) / 2.

(** [sf_sign_is s x]: [x] is a NaN, a zero, or a non-zero number whose sign
    bit is [s].  So [sf_sign_is false x] reads "[x] is not negative" and
    [sf_sign_is true x] "[x] is not positive". *)
Definition sf_sign_is (s : bool) (x : spec_float) : Prop :=
  match x with
  | S754_zero _ | S754_nan => True
  | S754_infinity sx | S754_finite sx _ _ => sx = s
  end.

Definition sign_is (s : bool) (x : float) : Prop := sf_sign_is s (Prim2SF x).

(** The ways an NPV evaluation can end: a value, or one of the two
    arithmetic exceptions. *)
Definition arithmetic_outcome {A : Type} (r : result A) : Prop :=
  match r with
  | Ok _ | Raise ZeroDivisionError | Raise OverflowError => True
  | Raise UnboundLocalError | Raise IndexError | Diverge => False
  end.

(** Value of a finite or zero number, in units of [2^-1075]. *)
Definition SFval (x : spec_float) : Z :=
  match x with
  | S754_finite s m e => cond_Zopp s (Zpos m * 2 ^ (e + 1075))%Z
  | _ => 0%Z
  end.

Definition SFfinite (x : spec_float) : Prop :=
  match x with
  | S754_finite _ _ _ | S754_zero _ => True
  | _ => False
  end.

(** [SFge_val r v]: the result [r] is at least the value [v] (so it is
    [+infinity] or a number); [SFle_val] likewise from above. *)
Definition SFge_val (r : spec_float) (v : Z) : Prop :=
  r = S754_infinity false \/ (SFfinite r /\ (v <= SFval r)%Z).

Definition SFle_val (r : spec_float) (v : Z) : Prop :=
  r = S754_infinity true \/ (SFfinite r /\ (SFval r <= v)%Z).

Definition SFtwo : spec_float := S754_finite false 4503599627370496 (-51).

(** Twice a number, when that is a binary64 number too. *)
Definition SFdouble (x : spec_float) : spec_float :=
  match x with
  | S754_finite s m e =>
      if (Zpos (digits2_pos m) <? 53)%Z then S754_finite s (xO m) e
      else S754_finite s m (e + 1)
  | _ => x
  end.

Definition val (x : float) : Z := SFval (Prim2SF x).
Definition fin (x : float) : Prop := SFfinite (Prim2SF x).

(** [2^1023]: below it in magnitude, the sum of two numbers cannot overflow. *)
Definition bisect_bound : float := 0x1p+1023.

(** A bracket the midpoint lemma applies to: numbers [lo <= hi] strictly
    between [-2^1023] and [2^1023]. *)
Definition bounded_bracket (lo hi : float) : Prop :=
  (lo <=? hi) = true
  /\ (- bisect_bound <? lo) = true
  /\ (hi <? bisect_bound) = true.

(** The same bracket, on values. *)
Definition bracket_ok (lo hi : float) : Prop :=
  fin lo /\ fin hi
  /\ (- 2 ^ 2098 < val lo /\ val lo <= val hi /\ val hi < 2 ^ 2098)%Z.

(** The values a run of the loop may hold, for a bracket [[lo0, hi0]]. *)
Definition within (lo0 hi0 x : float) : Prop :=
  fin x /\ (val lo0 <= val x <= val hi0)%Z.

Definition bisect_inv (lo0 hi0 : float) (s : bisect_state) : Prop :=
  within lo0 hi0 (low s) /\ within lo0 hi0 (high s)
  /\ (val (low s) <= val (high s))%Z
  /\ forall m, mid s = Some m -> within lo0 hi0 m.

(** The factor applied to path [i] between rows [t] and [t + 1] of the
    price grid, for the value [sigma2] of [sigma ** 2]. *)
Definition gbm_growth (np_exp : float -> float) (Z : nat -> nat -> float)
    (sigma2 : float) (t i : nat) : float :=
  np_exp ((Project1.mu - 0.5 * sigma2) * Project1.dt
          + Project1.sigma * sqrt Project1.dt * Z t i).

(** After the passes [t = 1 .. k]: the shape is unchanged, row 0 is the
    initial price and each row up to [k] follows from the one before it. *)
Definition filled_up_to (np_exp : float -> float) (Z : nat -> nat -> float)
    (sigma2 : float) (k : nat) (grid : list (list float)) : Prop :=
  length grid = (Project1.steps + 1)%nat
  /\ (forall t, (t <= Project1.steps)%nat -> length (nth t grid []) = Project1.N)
  /\ nth 0 grid [] = repeat Project1.S0 Project1.N
  /\ forall t i, (1 <= t <= k)%nat -> (i < Project1.N)%nat ->
       nth i (nth t grid []) 0
       = nth i (nth (t - 1) grid []) 0 * gbm_growth np_exp Z sigma2 (t - 1) i.

(** The number [1.0]. *)
Definition SFone : spec_float := S754_finite false 4503599627370496 (-52).

(** [2^-480], a bound under which no NPV of interest falls: the product of
    two numbers at least this large in magnitude does not underflow. *)
Definition product_bound : float := 0x1p-480.

(** Two numbers of strictly opposite sign. *)
Definition opposite_signs (a b : float) : Prop :=
  ((a <? 0) = true /\ (0 <? b) = true) \/ ((0 <? a) = true /\ (b <? 0) = true).

(** Two numbers of the same strict sign. *)
Definition same_signs (a b : float) : Prop :=
  ((a <? 0) = true /\ (b <? 0) = true) \/ ((0 <? a) = true /\ (0 <? b) = true).

(** A number that is a zero or at least [2^-480] in magnitude. *)
Definition zero_or_not_tiny (a : float) : Prop :=
  (a =? 0) = true \/ (product_bound <=? abs a) = true.

(** ** Proof automation *)

(** [SpecFloat] is written with the integer operations of [Corelib]; the
    arithmetic tactics know those of [BinInt]. *)
Ltac to_BinInt :=
  change IntDef.Z.add with Z.add in *;
  change IntDef.Z.sub with Z.sub in *;
  change IntDef.Z.mul with Z.mul in *;
  change IntDef.Z.opp with Z.opp in *;
  change IntDef.Z.max with Z.max in *;
  change IntDef.Z.min with Z.min in *;
  change IntDef.Z.leb with Z.leb in *;
  change IntDef.Z.eqb with Z.eqb in *;
  change IntDef.Z.compare with Z.compare in *;
  change IntDef.Z.even with Z.even in *;
  change IntDef.Z.shiftl with Z.shiftl in *;
  change IntDef.Z.div_eucl with Z.div_eucl in *;
  change PosDef.Pos.succ with Pos.succ in *;
  change PosDef.Pos.mul with Pos.mul in *;
  change @PosDef.Pos.iter with @Pos.iter in *;
  change PosDef.Pos.compare_cont with Pos.compare_cont in *.

(** ** Properties of the loops *)

Lemma bind_Ok {A B : Type} (m : result A) (k : A -> result B) (b : B) :
  bind m k = Ok b -> exists a, m = Ok a /\ k a = Ok b.
Proof. destruct m as [a| |]; simpl; intros H; try discriminate; eauto. Qed.

Lemma foldM_app {A B : Type} (f : A -> B -> result A) (l1 l2 : list B) (a : A) :
  foldM f (l1 ++ l2) a = (a' <- foldM f l1 a ;; foldM f l2 a').
Proof.
  revert a; induction l1 as [|x l1 IH]; intros a; simpl; [reflexivity|].
  destruct (f a x); simpl; auto.
Qed.

Lemma npv_prefix_sum (rate : float) (cash_flows : list float) (d : nat -> float) :
  forall n, (n <= length cash_flows)%nat ->
    (forall t, (t < n)%nat ->
       PyFloat.pow (1 + rate) t = Ok (d t) /\ (d t =? 0) = false) ->
    foldM (npv_step rate cash_flows) (seq 0 n) 0
    = Ok (discounted_sum (fun t => nth t cash_flows 0) d n).
Proof.
  induction n as [|n IH]; intros Hn Hd; [reflexivity|].
  rewrite seq_S, foldM_app, IH by (auto with arith). simpl.
  destruct (Hd n) as [Hp Hz]; [lia|].
  unfold npv_step. rewrite Hp. simpl. unfold PyFloat.truediv. rewrite Hz.
  reflexivity.
Qed.

(** C1 (as amended). Whenever each power [(1 + r) ** t], [t < n], is
    computed without overflow and is not zero, [npv r c] returns the
    binary64 sum of the [c[t] / (1 + r) ** t], added left to right from
    [0.0]. *)
Theorem npv_returns_discounted_sum (rate : float) (cash_flows : list float)
    (d : nat -> float) :
  (forall t, (t < length cash_flows)%nat ->
     PyFloat.pow (1 + rate) t = Ok (d t) /\ (d t =? 0) = false) ->
  npv rate cash_flows
  = Ok (discounted_sum (fun t => nth t cash_flows 0) d (length cash_flows)).
Proof. intros Hd. unfold npv. now apply npv_prefix_sum. Qed.

Lemma npv_returns_discounted_sum_witness :
  npv 0.1 [-100; 60; 60]
  = Ok (discounted_sum (fun t => nth t [-100; 60; 60] 0)
          (pow_or_zero (1 + 0.1)) 3).
Proof.
  apply (npv_returns_discounted_sum 0.1 [-100; 60; 60] (pow_or_zero (1 + 0.1))).
  intros t Ht. simpl in Ht.
  destruct t as [|[|[|t]]]; [split; vm_compute; reflexivity .. | lia].
Defined.

(** C1 (as stated) fails: at [r = 1e200 > -1] the power [(1 + r) ** 2]
    overflows and Python raises instead of returning a sum. *)
Lemma npv_raises_for_rate_above_minus_one :
  (-1 <? 1e200) = true /\ npv 1e200 [1; 1; 1] = Raise OverflowError.
Proof. split; vm_compute; reflexivity. Qed.

(** ** The default rate grid *)

Lemma rate_grid_more_fuel (r rate_max step : float) (rates : list float) :
  forall fuel fuel', (fuel <= fuel')%nat ->
    rate_grid fuel r rate_max step = Some rates ->
    rate_grid fuel' r rate_max step = Some rates.
Proof.
  intros fuel; revert r rates.
  induction fuel as [|fuel IH]; intros r rates fuel' Hle H; [discriminate|].
  destruct fuel' as [|fuel']; [lia|]. simpl in *.
  destruct (r <=? rate_max); [|assumption].
  destruct (rate_grid fuel (r + step) rate_max step) as [l|] eqn:E; [|discriminate].
  rewrite (IH _ _ fuel' ltac:(lia) E). assumption.
Qed.

Lemma default_rate_grid (fuel : nat) :
  (10992 <= fuel)%nat ->
  rate_grid fuel default_rate_min default_rate_max default_step
  = Some default_rates.
Proof.
  intros H. apply (rate_grid_more_fuel _ _ _ _ 10992%nat fuel H).
  vm_compute. reflexivity.
Qed.

(** C2. On [[-100, 121]] the default call returns exactly one IRR; it is
    within the tolerance [1e-6] of [0.21], and the NPV there is within the
    tolerance of zero. *)
Theorem find_all_irrs_single_inflow (fuel : nat) :
  (10992 <= fuel)%nat ->
  exists irr rates npv_values,
    find_all_irrs fuel [-100; 121] default_rate_min default_rate_max default_step
    = Ok ([irr], rates, npv_values)
    /\ (abs (irr - 0.21) <? default_tol) = true
    /\ exists v, npv irr [-100; 121] = Ok v /\ (abs v <? default_tol) = true.
Proof.
  intros H. unfold find_all_irrs. rewrite (default_rate_grid fuel H).
  eexists _, _, _. split; [vm_compute; reflexivity|].
  split; [vm_compute; reflexivity|].
  eexists. split; vm_compute; reflexivity.
Qed.

Lemma find_all_irrs_single_inflow_witness :
  exists irr rates npv_values,
    find_all_irrs 20000 [-100; 121] default_rate_min default_rate_max default_step
    = Ok ([irr], rates, npv_values)
    /\ (abs (irr - 0.21) <? default_tol) = true
    /\ exists v, npv irr [-100; 121] = Ok v /\ (abs v <? default_tol) = true.
Proof.
  apply (find_all_irrs_single_inflow 20000).
  apply Nat.leb_le. vm_compute. reflexivity.
Defined.

(** ** The bisection loop *)

Lemma bisect_loop_not_None (cash_flows : list float) (tol : float) :
  forall max_iter s, bisect_loop cash_flows tol max_iter s <> Ok None.
Proof.
  induction max_iter as [|n IH]; intros s; simpl.
  - destruct (mid s); discriminate.
  - destruct (bisect_body cash_flows tol s) as [[m|s']| |]; simpl;
      [discriminate | apply IH | discriminate | discriminate].
Qed.

(** The guard is the only way to the absent marker. *)
Lemma irr_bisection_None_positive (cash_flows : list float) (lo hi tol : float)
    (max_iter : nat) (a b : float) :
  npv lo cash_flows = Ok a ->
  npv hi cash_flows = Ok b ->
  irr_bisection_interval cash_flows lo hi tol max_iter = Ok None ->
  (0 <? a * b) = true.
Proof.
  intros Ha Hb. unfold irr_bisection_interval. rewrite Ha, Hb. simpl.
  destruct (0 <? a * b) eqn:E; [reflexivity|].
  intros H. now apply bisect_loop_not_None in H.
Qed.

(** C3 fails on the code.  On [[1e-200]] both endpoint NPVs are
    [1e-200], of the same sign and not zero: the NPV does not change sign
    and the absent marker is due.  But their product underflows to [0.0],
    the test [npv_low * npv_high > 0] is false, the loop runs and a numeric
    rate is returned. *)
Lemma irr_bisection_numeric_on_same_sign_endpoints :
  npv 0 [1e-200] = Ok 1e-200
  /\ npv 1 [1e-200] = Ok 1e-200
  /\ (0 <? 1e-200) = true
  /\ irr_bisection_interval [1e-200] 0 1 default_tol default_max_iter = Ok (Some 0.5).
Proof.
  split; [vm_compute; reflexivity|].
  split; [vm_compute; reflexivity|].
  split; vm_compute; reflexivity.
Qed.

(** C4 fails on the code.  With [low = 0.21] an exact root of
    [[-100, 121]] and [high = 1.0], the first pass replaces [low] by the
    midpoint: at the start of the second pass both endpoint NPVs are
    negative, and after 1000 passes the rate returned has an NPV below
    [-39]. *)
Lemma irr_bisection_loses_root_at_low :
  npv 0.21 [-100; 121] = Ok 0
  /\ (exists s,
        bisect_state_at [-100; 121] default_tol 1
          (mk_bisect_state 0.21 1 0 (-39.5) None) = Ok (Some s)
        /\ (npv_low s <? 0) = true /\ (npv_high s <? 0) = true)
  /\ (exists r v,
        irr_bisection_interval [-100; 121] 0.21 1 default_tol default_max_iter
        = Ok (Some r)
        /\ npv r [-100; 121] = Ok v /\ (v <? -39) = true).
Proof.
  split; [vm_compute; reflexivity|]. split.
  - eexists. split; [vm_compute; reflexivity|].
    split; vm_compute; reflexivity.
  - eexists _, _. split; [vm_compute; reflexivity|].
    split; vm_compute; reflexivity.
Qed.

Lemma bisect_body_continues (cash_flows : list float) (tol : float)
    (s : bisect_state) (v : float) :
  npv (midpoint s) cash_flows = Ok v ->
  (abs v <? tol) = false ->
  exists s', bisect_body cash_flows tol s = Ok (inr s')
             /\ mid s' = Some (midpoint s).
Proof.
  intros Hv Ht. unfold bisect_body. fold (midpoint s). rewrite Hv. simpl.
  rewrite Ht. destruct (npv_low s * v <? 0); eexists; split; reflexivity.
Qed.

Lemma bisect_loop_exhausted (cash_flows : list float) (tol : float) :
  forall n s,
    (forall k, (k <= n)%nat ->
       exists s' v, bisect_state_at cash_flows tol k s = Ok (Some s')
                    /\ npv (midpoint s') cash_flows = Ok v
                    /\ (abs v <? tol) = false) ->
    exists s', bisect_state_at cash_flows tol n s = Ok (Some s')
               /\ bisect_loop cash_flows tol (S n) s = Ok (Some (midpoint s')).
Proof.
  induction n as [|n IH]; intros s H.
  - destruct (H 0%nat (le_n _)) as (s' & v & Hs & Hv & Ht).
    simpl in Hs. injection Hs as <-.
    destruct (bisect_body_continues _ _ _ _ Hv Ht) as (s1 & Hb & Hm).
    exists s. split; [reflexivity|]. simpl. rewrite Hb. simpl. now rewrite Hm.
  - destruct (H 0%nat (Nat.le_0_l _)) as (s' & v & Hs & Hv & Ht).
    simpl in Hs. injection Hs as <-.
    destruct (bisect_body_continues _ _ _ _ Hv Ht) as (s1 & Hb & _).
    destruct (IH s1) as (s2 & Hs2 & Hl).
    + intros k Hk. specialize (H (S k) ltac:(lia)).
      simpl in H. rewrite Hb in H. exact H.
    + exists s2. split.
      * simpl. rewrite Hb. exact Hs2.
      * change (bisect_loop cash_flows tol (S (S n)) s)
          with (r <- bisect_body cash_flows tol s ;;
                match r with
                | inl m => Ok (Some m)
                | inr s' => bisect_loop cash_flows tol (S n) s'
                end).
        rewrite Hb. exact Hl.
Qed.

(** C5. When the product test lets the loop start and every one of the
    [max_iter] passes computes a midpoint NPV that is not within the
    tolerance, the function returns a numeric result: the midpoint computed
    in the last pass. *)
Theorem irr_bisection_exhausted_returns_last_mid
    (cash_flows : list float) (lo hi tol : float) (max_iter : nat) (a b : float) :
  npv lo cash_flows = Ok a ->
  npv hi cash_flows = Ok b ->
  (0 <? a * b) = false ->
  (0 < max_iter)%nat ->
  (forall k, (k < max_iter)%nat ->
     exists s v,
       bisect_state_at cash_flows tol k (mk_bisect_state lo hi a b None) = Ok (Some s)
       /\ npv (midpoint s) cash_flows = Ok v
       /\ (abs v <? tol) = false) ->
  exists s,
    bisect_state_at cash_flows tol (max_iter - 1) (mk_bisect_state lo hi a b None)
    = Ok (Some s)
    /\ irr_bisection_interval cash_flows lo hi tol max_iter = Ok (Some (midpoint s)).
Proof.
  intros Ha Hb Hp Hpos Hrun.
  destruct max_iter as [|n]; [lia|].
  replace (S n - 1)%nat with n by lia.
  unfold irr_bisection_interval. rewrite Ha, Hb. simpl bind. rewrite Hp.
  apply bisect_loop_exhausted. intros k Hk. apply Hrun. lia.
Qed.

Lemma irr_bisection_exhausted_returns_last_mid_witness :
  exists s,
    bisect_state_at [-1; 2] default_tol (3 - 1) (mk_bisect_state 0 3 1 (-0.5) None)
    = Ok (Some s)
    /\ irr_bisection_interval [-1; 2] 0 3 default_tol 3 = Ok (Some (midpoint s)).
Proof.
  apply (irr_bisection_exhausted_returns_last_mid [-1; 2] 0 3 default_tol 3 1 (-0.5)).
  - vm_compute; reflexivity.
  - vm_compute; reflexivity.
  - vm_compute; reflexivity.
  - lia.
  - intros k Hk.
    destruct k as [|[|[|k]]];
      [eexists _, _; split; [vm_compute; reflexivity|];
       split; vm_compute; reflexivity .. | lia].
Defined.

(** ** Signs of binary64 results *)

Lemma Prim2SF_zero : Prim2SF 0 = S754_zero false.
Proof. reflexivity. Qed.

Lemma binary_round_aux_sign (sx : bool) (mx ex : Z) (lx : location) :
  sf_sign_is sx (binary_round_aux prec emax sx mx ex lx).
Proof.
  unfold binary_round_aux.
  destruct (shr_fexp prec emax mx ex lx) as [mrs' e'].
  destruct (shr_fexp prec emax _ e' loc_Exact) as [mrs'' e''].
  destruct (shr_m mrs''); [exact I | | exact I].
  destruct (e'' <=? emax - prec)%Z; reflexivity.
Qed.



Lemma SFmul_sign (sx sy : bool) (x y : spec_float) :
  sf_sign_is sx x -> sf_sign_is sy y ->
  sf_sign_is (xorb sx sy) (SF64mul x y).
Proof.
  destruct x as [s1|s1| |s1 m1 e1], y as [s2|s2| |s2 m2 e2];
    simpl; intros Hx Hy; subst; try exact I; try reflexivity.
  apply binary_round_aux_sign.
Qed.



Lemma mul_sign (sx sy : bool) (x y : float) :
  sign_is sx x -> sign_is sy y -> sign_is (xorb sx sy) (x * y).
Proof. unfold sign_is. rewrite mul_spec. apply SFmul_sign. Qed.






Lemma sign_false_not_ltb_zero (x : float) : sign_is false x -> (x <? 0) = false.
Proof.
  unfold sign_is. rewrite ltb_spec, Prim2SF_zero.
  destruct (Prim2SF x) as [s|[|]| |[|] m e]; simpl; intros H;
    try reflexivity; discriminate.
Qed.

Lemma ltb_zero_not_gtb_zero (x : float) : (x <? 0) = true -> (0 <? x) = false.
Proof.
  rewrite !ltb_spec, Prim2SF_zero.
  destruct (Prim2SF x) as [s|[|]| |[|] m e]; simpl; intros H;
    try reflexivity; discriminate.
Qed.








(** ** Signs of NPVs *)




Lemma mapM_length {A B : Type} (f : A -> result B) :
  forall (l : list A) (ys : list B), mapM f l = Ok ys -> length ys = length l.
Proof.
  induction l as [|x l IH]; simpl; intros ys H.
  - now injection H as <-.
  - destruct (f x) as [y| |]; simpl in H; try discriminate.
    destruct (mapM f l) as [ys'| |]; simpl in H; try discriminate.
    injection H as <-. simpl. now rewrite (IH ys').
Qed.

Lemma sign_change_intervals_cons (r0 r1 v0 v1 : float) (rates vals : list float) :
  sign_change_intervals (r0 :: r1 :: rates) (v0 :: v1 :: vals)
  = if v0 * v1 <? 0
    then (r0, r1) :: sign_change_intervals (r1 :: rates) (v1 :: vals)
    else sign_change_intervals (r1 :: rates) (v1 :: vals).
Proof. reflexivity. Qed.


Lemma pow_outcome (v : float) (t : nat) : arithmetic_outcome (PyFloat.pow v t).
Proof.
  unfold PyFloat.pow. destruct t; [exact I|]. cbv zeta.
  repeat match goal with |- context [if ?c then _ else _] => destruct c end;
    exact I.
Qed.

Lemma foldM_outcome {A B : Type} (f : A -> B -> result A) :
  (forall a x, arithmetic_outcome (f a x)) ->
  forall l a, arithmetic_outcome (foldM f l a).
Proof.
  intros Hf. induction l as [|x l IH]; intros a; simpl; [exact I|].
  specialize (Hf a x). destruct (f a x) as [a'|e|]; simpl; auto.
Qed.

Lemma npv_step_outcome (rate : float) (cash_flows : list float)
    (total : float) (t : nat) :
  arithmetic_outcome (npv_step rate cash_flows total t).
Proof.
  unfold npv_step.
  pose proof (pow_outcome (1 + rate) t) as Hp.
  destruct (PyFloat.pow (1 + rate) t) as [d|e|]; simpl; auto.
  unfold PyFloat.truediv. destruct (d =? 0); exact I.
Qed.

Lemma npv_outcome (rate : float) (cash_flows : list float) :
  arithmetic_outcome (npv rate cash_flows).
Proof. apply foldM_outcome. apply npv_step_outcome. Qed.

Lemma mapM_outcome {A B : Type} (f : A -> result B) :
  (forall x, arithmetic_outcome (f x)) ->
  forall l, arithmetic_outcome (mapM f l).
Proof.
  intros Hf. induction l as [|x l IH]; simpl; [exact I|].
  specialize (Hf x). destruct (f x) as [y|e|]; simpl; auto.
  destruct (mapM f l) as [ys|e|]; simpl; auto.
Qed.





Lemma npv_step_zero_power (rate : float) (cash_flows : list float)
    (total : float) (t : nat) :
  PyFloat.pow (1 + rate) t = Ok 0 ->
  npv_step rate cash_flows total t = Raise ZeroDivisionError.
Proof. intros H. unfold npv_step. rewrite H. reflexivity. Qed.


Lemma default_rates_head :
  exists rest, default_rates = default_rate_min :: rest.
Proof. eexists. reflexivity. Qed.


(** ** Brackets of the scan *)

Lemma mapM_cons_Ok {A B : Type} (f : A -> result B) (x : A) (l : list A)
    (ys : list B) :
  mapM f (x :: l) = Ok ys ->
  exists y ys', f x = Ok y /\ mapM f l = Ok ys' /\ ys = y :: ys'.
Proof.
  simpl. intros H.
  apply bind_Ok in H as (y & Hy & H).
  apply bind_Ok in H as (ys' & Hys & H).
  injection H as <-. eauto.
Qed.

Lemma sign_change_intervals_npv (f : float -> result float) :
  forall rates npv_values lo hi,
    mapM f rates = Ok npv_values ->
    In (lo, hi) (sign_change_intervals rates npv_values) ->
    exists a b, f lo = Ok a /\ f hi = Ok b /\ (a * b <? 0) = true.
Proof.
  induction rates as [|r0 rates IH]; intros vals lo hi Hm Hin; [contradiction|].
  apply mapM_cons_Ok in Hm as (v0 & vs & E0 & Em & ->).
  destruct rates as [|r1 rates]; [contradiction|].
  pose proof Em as Em'.
  apply mapM_cons_Ok in Em' as (v1 & vs' & E1 & _ & ->).
  rewrite sign_change_intervals_cons in Hin.
  specialize (IH (v1 :: vs') lo hi Em).
  destruct (v0 * v1 <? 0) eqn:Ep; [|auto].
  destruct Hin as [[= <- <-]|Hin]; [|auto].
  exists v0, v1. auto.
Qed.

Lemma collect_irrs_length (cash_flows : list float) :
  forall intervals irrs,
    (forall lo hi, In (lo, hi) intervals ->
       exists a b, npv lo cash_flows = Ok a /\ npv hi cash_flows = Ok b
                   /\ (a * b <? 0) = true) ->
    collect_irrs cash_flows intervals = Ok irrs ->
    length irrs = length intervals.
Proof.
  induction intervals as [|[lo hi] rest IH]; intros irrs Hb H; simpl in H.
  - now injection H as <-.
  - destruct (irr_bisection_interval cash_flows lo hi default_tol default_max_iter)
      as [irr| |] eqn:Ei; simpl in H; try discriminate.
    destruct (collect_irrs cash_flows rest) as [irrs'| |] eqn:Ec;
      simpl in H; try discriminate.
    injection H as <-.
    destruct (Hb lo hi (or_introl eq_refl)) as (a & b & Ha & Hb' & Hp).
    pose proof (irr_bisection_None_positive
                  cash_flows lo hi default_tol default_max_iter a b Ha Hb')
      as Hnone.
    destruct irr as [r|].
    + simpl. f_equal. apply IH; [|reflexivity].
      intros lo' hi' Hin. apply Hb. now right.
    + apply Hnone in Ei. rewrite (ltb_zero_not_gtb_zero _ Hp) in Ei. discriminate.
Qed.

(** C8 fails on the code.  [[-1, 1.250000000000001]] is one outlay
    followed by one inflow.  Its IRR is the grid rate
    [rates[1240] = 0.25000000000000105], inside the scanned range, where
    the NPV is exactly [0.0]; the NPVs at the grid rates before and after
    it are positive and negative.  Both products with [0.0] fail the test
    [< 0], no bracket is formed and the default call returns no root. *)
Lemma find_all_irrs_misses_root_on_grid :
  (-1 <? 0) = true /\ (0 <? 1.250000000000001) = true
  /\ exists rates npv_values,
       find_all_irrs 20000 [-1; 1.250000000000001]
         default_rate_min default_rate_max default_step
       = Ok ([], rates, npv_values)
       /\ nth_error rates 1240 = Some 0.25000000000000105
       /\ npv 0.25000000000000105 [-1; 1.250000000000001] = Ok 0
       /\ nth_error npv_values 1239 = Some 0.00080064051240991141
       /\ nth_error npv_values 1240 = Some 0
       /\ nth_error npv_values 1241 = Some (-0.00079936051159068544).
Proof.
  split; [reflexivity|]. split; [reflexivity|].
  eexists _, _.
  split; [vm_compute; reflexivity|].
  split; [vm_compute; reflexivity|].
  split; [vm_compute; reflexivity|].
  split; [vm_compute; reflexivity|].
  split; vm_compute; reflexivity.
Qed.

(** A root beyond the scanned range is out of reach: the only IRR of
    [[-1, 100]] is 99, above [rate_max = 10.0], and the default call
    returns no root. *)
Lemma find_all_irrs_root_beyond_range :
  (-1 <? 0) = true /\ (0 <? 100) = true
  /\ exists rates npv_values,
       find_all_irrs 20000 [-1; 100] default_rate_min default_rate_max default_step
       = Ok ([], rates, npv_values).
Proof.
  split; [reflexivity|]. split; [reflexivity|].
  eexists _, _. vm_compute. reflexivity.
Qed.

(** ** The GBM recurrence *)

Lemma update_length {A : Type} (a : list A) (v : A) :
  forall i, length (update a i v) = length a.
Proof.
  induction a as [|x a IH]; intros [|i]; simpl; auto.
Qed.

Lemma nth_update_eq {A : Type} (a : list A) (v d : A) :
  forall i, (i < length a)%nat -> nth i (update a i v) d = v.
Proof.
  induction a as [|x a IH]; intros [|i] Hi; simpl in *; try lia; auto.
  apply IH. lia.
Qed.

Lemma nth_update_neq {A : Type} (a : list A) (v d : A) :
  forall i j, i <> j -> nth j (update a i v) d = nth j a d.
Proof.
  induction a as [|x a IH]; intros [|i] [|j] Hij; simpl; auto; try congruence.
Qed.

Lemma getitem_nth {A : Type} (a : list A) (i : nat) (d : A) :
  (i < length a)%nat -> getitem a i = Ok (nth i a d).
Proof.
  intros Hi. unfold getitem.
  destruct (nth_error a i) as [v|] eqn:E.
  - now rewrite (nth_error_nth a i d E).
  - apply nth_error_None in E. lia.
Qed.

Section GBMRecurrence.

Variable np_exp : float -> float.
Variable Z : nat -> nat -> float.
Variable sigma2 : float.
Hypothesis sigma2_value : PyFloat.pow Project1.sigma 2 = Ok sigma2.

Lemma next_row_spec (prev : list float) (t : nat) :
  length prev = Project1.N ->
  exists row,
    Project1.next_row np_exp prev (Project1.Z_row Z t) = Ok row
    /\ length row = Project1.N
    /\ forall i, (i < Project1.N)%nat -> nth i row 0 = nth i prev 0 * gbm_growth np_exp Z sigma2 t i.
Proof.
  intros Hlen. unfold Project1.next_row. rewrite sigma2_value. cbn [bind].
  eexists. split; [reflexivity|].
  assert (Hz : length (Project1.Z_row Z t) = Project1.N)
    by (unfold Project1.Z_row; now rewrite length_map, length_seq).
  assert (Hc : length (combine prev (Project1.Z_row Z t)) = Project1.N)
    by (rewrite length_combine, Hlen, Hz; apply Nat.min_id).
  split; [now rewrite length_map|].
  intros i Hi.
  set (f := fun pz : float * float => _).
  rewrite (nth_indep (map f (combine prev (Project1.Z_row Z t))) 0 (f (0, 0)))
    by (now rewrite length_map, Hc).
  rewrite map_nth, combine_nth by congruence.
  unfold f, gbm_growth, Project1.Z_row. cbn [fst snd].
  rewrite (nth_indep (map (Z t) (seq 0 Project1.N)) 0 (Z t 0%nat))
    by (now rewrite length_map, length_seq).
  rewrite map_nth, seq_nth by exact Hi. reflexivity.
Qed.

Lemma gbm_step_spec (k : nat) (grid : list (list float)) :
  (k < Project1.steps)%nat ->
  filled_up_to np_exp Z sigma2 k grid ->
  exists grid',
    Project1.gbm_step np_exp Z grid (k + 1) = Ok grid'
    /\ filled_up_to np_exp Z sigma2 (k + 1) grid'.
Proof.
  intros Hk (Hlen & Hrows & H0 & Hrec).
  unfold Project1.gbm_step.
  replace (k + 1 - 1)%nat with k by lia.
  rewrite (getitem_nth grid k []) by lia. cbn [bind].
  destruct (next_row_spec (nth k grid []) k) as (row & Hrow & Hrl & Hri);
    [apply Hrows; lia|].
  rewrite Hrow. cbn [bind]. unfold setitem.
  replace (k + 1 <? length grid)%nat with true
    by (symmetry; apply Nat.ltb_lt; lia).
  eexists. split; [reflexivity|].
  split; [now rewrite update_length|]. split; [|split].
  - intros t Ht. destruct (Nat.eq_dec (k + 1) t) as [<-|Hne].
    + rewrite nth_update_eq by lia. exact Hrl.
    + rewrite nth_update_neq by exact Hne. now apply Hrows.
  - rewrite nth_update_neq by lia. exact H0.
  - intros t i Ht Hi.
    rewrite (nth_update_neq grid row [] (k + 1) (t - 1)) by lia.
    destruct (Nat.eq_dec (k + 1) t) as [<-|Hne].
    + rewrite nth_update_eq by lia.
      replace (k + 1 - 1)%nat with k by lia. now apply Hri.
    + rewrite nth_update_neq by exact Hne. apply Hrec; [lia | exact Hi].
Qed.

Lemma gbm_loop_spec :
  forall k grid,
    (k <= Project1.steps)%nat ->
    filled_up_to np_exp Z sigma2 0 grid ->
    exists grid',
      foldM (Project1.gbm_step np_exp Z) (seq 1 k) grid = Ok grid'
      /\ filled_up_to np_exp Z sigma2 k grid'.
Proof.
  induction k as [|k IH]; intros grid Hk H0.
  - exists grid. split; [reflexivity | exact H0].
  - destruct (IH grid ltac:(lia) H0) as (g1 & Hg1 & Hf1).
    destruct (gbm_step_spec k g1 ltac:(lia) Hf1) as (g2 & Hg2 & Hf2).
    exists g2. rewrite seq_S, foldM_app, Hg1. simpl.
    replace (S k) with (k + 1)%nat by lia.
    rewrite Hg2. simpl. split; [reflexivity | exact Hf2].
Qed.

Lemma gbm_grid_spec :
  exists grid, Project1.S np_exp Z = Ok grid /\ filled_up_to np_exp Z sigma2 Project1.steps grid.
Proof.
  unfold Project1.S, setitem, Project1.zeros.
  rewrite repeat_length.
  replace (0 <? Project1.steps + 1)%nat with true
    by (symmetry; apply Nat.ltb_lt; lia).
  cbn [bind]. apply gbm_loop_spec; [lia|].
  replace (Project1.steps + 1)%nat with (S Project1.steps) by lia.
  cbn [repeat update].
  split; [simpl; now rewrite repeat_length|]. split; [|split].
  - intros [|t] Ht; cbn [nth]; [apply repeat_length|].
    rewrite nth_repeat_lt by lia. apply repeat_length.
  - reflexivity.
  - intros t i Ht. lia.
Qed.

End GBMRecurrence.

(** C9. The script fills a grid of [steps + 1] rows: row 0 holds [S0] on
    every path, and on every path [i] each later row [t] is the row before
    it times [exp((mu - 0.5 * sigma**2) * dt + sigma * sqrt(dt) * Z[t-1][i])],
    a value of path [i] alone. *)
Theorem gbm_grid_recurrence (np_exp : float -> float) (Z : nat -> nat -> float)
    (t i : nat) :
  (1 <= t <= Project1.steps)%nat ->
  (i < Project1.N)%nat ->
  exists grid sigma2,
    Project1.S np_exp Z = Ok grid
    /\ PyFloat.pow Project1.sigma 2 = Ok sigma2
    /\ length grid = (Project1.steps + 1)%nat
    /\ nth i (nth 0 grid []) 0 = Project1.S0
    /\ nth i (nth t grid []) 0
       = nth i (nth (t - 1) grid []) 0
         * np_exp ((Project1.mu - 0.5 * sigma2) * Project1.dt
                   + Project1.sigma * sqrt Project1.dt * Z (t - 1)%nat i).
Proof.
  intros Ht Hi.
  assert (Hs : PyFloat.pow Project1.sigma 2 = Ok 0.040000000000000008)
    by (vm_compute; reflexivity).
  destruct (gbm_grid_spec np_exp Z _ Hs) as (grid & Hgrid & Hlen & _ & H0 & Hrec).
  exists grid, 0.040000000000000008.
  split; [exact Hgrid|]. split; [exact Hs|]. split; [exact Hlen|]. split.
  - rewrite H0. apply nth_repeat_lt. exact Hi.
  - now apply Hrec.
Qed.

Lemma gbm_grid_recurrence_witness :
  exists grid sigma2,
    Project1.S (fun x => 1 + x) (fun _ _ => 0.5) = Ok grid
    /\ PyFloat.pow Project1.sigma 2 = Ok sigma2
    /\ length grid = (Project1.steps + 1)%nat
    /\ nth 3 (nth 0 grid []) 0 = Project1.S0
    /\ nth 3 (nth 2 grid []) 0
       = nth 3 (nth (2 - 1) grid []) 0
         * (fun x => 1 + x)
             ((Project1.mu - 0.5 * sigma2) * Project1.dt
              + Project1.sigma * sqrt Project1.dt * (fun _ _ : nat => 0.5) (2 - 1)%nat 3%nat).
Proof.
  apply (gbm_grid_recurrence (fun x => 1 + x) (fun _ _ => 0.5) 2 3).
  - split; apply Nat.leb_le; vm_compute; reflexivity.
  - apply Nat.ltb_lt. vm_compute. reflexivity.
Defined.

(** * Binary64 rounding: order, addition and halving

    The facts about IEEE-754 arithmetic that the bisection needs, proved
    from the [SpecFloat] definitions of the operations: every finite
    binary64 number is an integer multiple of [2^-1075], and values are
    compared in that unit. *)

Open Scope Z_scope.

Lemma fexp64 (z : Z) : fexp prec emax z = Z.max (z - 53) (-1074).
Proof. reflexivity. Qed.

Lemma digits2_pos_bounds (p : positive) :
  2 ^ (Zpos (digits2_pos p) - 1) <= Zpos p < 2 ^ Zpos (digits2_pos p).
Proof.
  induction p as [p IH|p IH|]; cbn [digits2_pos];
    [rewrite Pos2Z.inj_succ; change (Zpos p~1) with (2 * Zpos p + 1)
    |rewrite Pos2Z.inj_succ; change (Zpos p~0) with (2 * Zpos p)
    |change (2 ^ 0 <= 1 < 2 ^ 1); lia];
    replace (Z.succ (Zpos (digits2_pos p)) - 1)
      with (Z.succ (Zpos (digits2_pos p) - 1)) by lia;
    rewrite !Z.pow_succ_r by lia;
    revert IH;
    generalize (2 ^ (Zpos (digits2_pos p) - 1)) (2 ^ Zpos (digits2_pos p));
    intros; lia.
Qed.

Lemma Zdigits2_bounds (m : Z) :
  0 < m -> 2 ^ (Zdigits2 m - 1) <= m < 2 ^ Zdigits2 m.
Proof. destruct m as [|p|p]; try lia. intros _. apply digits2_pos_bounds. Qed.

Lemma Zdigits2_nonneg (m : Z) : 0 <= Zdigits2 m.
Proof. destruct m; simpl; lia. Qed.

(** A number below [2^k] has at most [k] digits, one at least [2^(k-1)] has at least [k]. *)
Lemma Zdigits2_le (m k : Z) : 0 <= k -> 0 <= m < 2 ^ k -> Zdigits2 m <= k.
Proof.
  intros Hk [H0 Hm]. destruct (Z.eq_dec m 0) as [->|Hne]; [simpl; lia|].
  destruct (Zdigits2_bounds m ltac:(lia)) as [Hlo _].
  destruct (Z_le_gt_dec (Zdigits2 m) k) as [|Hgt]; [assumption|exfalso].
  assert (2 ^ k <= 2 ^ (Zdigits2 m - 1)) by (apply Z.pow_le_mono_r; lia). lia.
Qed.

Lemma Zdigits2_ge (m k : Z) : 2 ^ (k - 1) <= m -> 0 < m -> k <= Zdigits2 m.
Proof.
  intros Hm H0. destruct (Zdigits2_bounds m H0) as [_ Hhi].
  destruct (Z_le_gt_dec k (Zdigits2 m)) as [|Hgt]; [assumption|exfalso].
  pose proof (Zdigits2_nonneg m).
  assert (2 ^ Zdigits2 m <= 2 ^ (k - 1)) by (apply Z.pow_le_mono_r; lia). lia.
Qed.

Lemma bounded_inv (m : positive) (e : Z) :
  bounded prec emax m e = true ->
  -1074 <= e <= 971 /\ Zpos (digits2_pos m) <= 53
  /\ (-1074 < e -> Zpos (digits2_pos m) = 53).
Proof.
  unfold bounded, canonical_mantissa. rewrite andb_true_iff, fexp64.
  intros [Hc He]. to_BinInt. apply Z.eqb_eq in Hc. apply Z.leb_le in He.
  change (emax - prec) with 971 in He. lia.
Qed.

Lemma bounded_value_lt (m : positive) (e : Z) :
  bounded prec emax m e = true -> Zpos m * 2 ^ (e + 1075) < 2 ^ (e + 1128).
Proof.
  intros H. destruct (bounded_inv m e H) as (He & Hd & _).
  destruct (digits2_pos_bounds m) as [_ Hm].
  assert (2 ^ Zpos (digits2_pos m) <= 2 ^ 53) by (apply Z.pow_le_mono_r; lia).
  replace (e + 1128) with (53 + (e + 1075)) by lia.
  rewrite (Z.pow_add_r 2 53 (e + 1075)) by lia.
  assert (0 < 2 ^ (e + 1075)) by (apply Z.pow_pos_nonneg; lia). nia.
Qed.

Lemma bounded_value_ge (m : positive) (e : Z) :
  bounded prec emax m e = true -> -1074 < e ->
  2 ^ (e + 1127) <= Zpos m * 2 ^ (e + 1075).
Proof.
  intros H Hn. destruct (bounded_inv m e H) as (He & _ & Hd).
  specialize (Hd Hn). destruct (digits2_pos_bounds m) as [Hm _].
  rewrite Hd in Hm. change (53 - 1) with 52 in Hm.
  replace (e + 1127) with (52 + (e + 1075)) by lia.
  rewrite (Z.pow_add_r 2 52 (e + 1075)) by lia.
  assert (0 < 2 ^ (e + 1075)) by (apply Z.pow_pos_nonneg; lia). nia.
Qed.

(** Magnitudes of canonical numbers compare as exponent, then mantissa. *)
Lemma canonical_compare (m1 m2 : positive) (e1 e2 : Z) :
  bounded prec emax m1 e1 = true ->
  bounded prec emax m2 e2 = true ->
  match e1 ?= e2 with
  | Lt => Lt
  | Gt => Gt
  | Eq => Pos.compare_cont Eq m1 m2
  end = (Zpos m1 * 2 ^ (e1 + 1075) ?= Zpos m2 * 2 ^ (e2 + 1075)).
Proof.
  intros H1 H2. symmetry.
  pose proof (bounded_inv _ _ H1) as (He1 & _ & _).
  pose proof (bounded_inv _ _ H2) as (He2 & _ & _).
  destruct (Z.compare_spec e1 e2) as [->|Hlt|Hgt].
  - change (Pos.compare_cont Eq m1 m2) with (Zpos m1 ?= Zpos m2).
    assert (0 < 2 ^ (e2 + 1075)) by (apply Z.pow_pos_nonneg; lia).
    destruct (Z.compare_spec (Zpos m1) (Zpos m2)) as [E|E|E];
      [apply Z.compare_eq_iff | apply Z.compare_lt_iff | apply Z.compare_gt_iff]; nia.
  - apply Z.compare_lt_iff.
    pose proof (bounded_value_lt _ _ H1). pose proof (bounded_value_ge _ _ H2 ltac:(lia)).
    assert (2 ^ (e1 + 1128) <= 2 ^ (e2 + 1127)) by (apply Z.pow_le_mono_r; lia). lia.
  - apply Z.compare_gt_iff.
    pose proof (bounded_value_lt _ _ H2). pose proof (bounded_value_ge _ _ H1 ltac:(lia)).
    assert (2 ^ (e2 + 1128) <= 2 ^ (e1 + 1127)) by (apply Z.pow_le_mono_r; lia). lia.
Qed.

Lemma SFval_pos (m : positive) (e : Z) : 0 < Zpos m * 2 ^ (e + 1075) \/ e + 1075 < 0.
Proof.
  destruct (Z_lt_le_dec (e + 1075) 0); [now right|left].
  assert (0 < 2 ^ (e + 1075)) by (apply Z.pow_pos_nonneg; lia). nia.
Qed.

Lemma SFcompare_val (x y : spec_float) :
  valid_binary x = true -> valid_binary y = true ->
  SFfinite x -> SFfinite y ->
  SFcompare x y = Some (SFval x ?= SFval y).
Proof.
  destruct x as [sx| | |sx mx ex], y as [sy| | |sy my ey];
    cbn [SFcompare SFval valid_binary SFfinite];
    intros Hx Hy Fx Fy; try contradiction; try reflexivity.
  - pose proof (bounded_inv _ _ Hy) as (He & _).
    destruct (SFval_pos my ey); [|lia].
    destruct sy; cbn [cond_Zopp]; f_equal; symmetry;
      [apply Z.compare_gt_iff | apply Z.compare_lt_iff]; lia.
  - pose proof (bounded_inv _ _ Hx) as (He & _).
    destruct (SFval_pos mx ex); [|lia].
    destruct sx; cbn [cond_Zopp]; f_equal; symmetry;
      [apply Z.compare_lt_iff | apply Z.compare_gt_iff]; lia.
  - pose proof (bounded_inv _ _ Hx) as (Hex & _).
    pose proof (bounded_inv _ _ Hy) as (Hey & _).
    destruct (SFval_pos mx ex); [|lia]. destruct (SFval_pos my ey); [|lia].
    f_equal. destruct sx, sy; cbn [cond_Zopp].
    + rewrite Z.compare_opp, <- (canonical_compare my mx ey ex Hy Hx).
      to_BinInt. rewrite (Z.compare_antisym ey ex).
      destruct (ey ?= ex); cbn [CompOpp]; try reflexivity.
      rewrite (Pos.compare_cont_antisym mx my Eq). reflexivity.
    + symmetry. apply Z.compare_lt_iff. lia.
    + symmetry. apply Z.compare_gt_iff. lia.
    + to_BinInt. apply canonical_compare; assumption.
Qed.

(** ** Right shifts with sticky bits *)

Lemma iter_pos_nat {A : Type} (f : A -> A) :
  forall (p : positive) (x : A), iter_pos f p x = Nat.iter (Pos.to_nat p) f x.
Proof.
  induction p as [p IH|p IH|]; intros x; cbn [iter_pos].
  - rewrite !IH, Pos2Nat.inj_xI, <- Nat.iter_add, <- Nat.iter_succ_r.
    f_equal. lia.
  - rewrite !IH, Pos2Nat.inj_xO, <- Nat.iter_add. f_equal. lia.
  - reflexivity.
Qed.

Lemma shr_1_spec (m : Z) (r s : bool) :
  0 <= m ->
  shr_m (shr_1 (Build_shr_record m r s)) = m / 2
  /\ (loc_of_shr_record (shr_1 (Build_shr_record m r s)) = loc_Exact
      <-> r = false /\ s = false /\ m mod 2 = 0).
Proof.
  intros Hm. rewrite <- Z.div2_div, Zmod_odd.
  destruct m as [|[p|p|]|p]; try lia;
    destruct r, s; cbn; (split; [reflexivity|]);
    intuition (discriminate || congruence).
Qed.

Lemma shr_iter_spec (m : Z) (r s : bool) :
  0 <= m ->
  forall k : nat,
    let mrs := Nat.iter k shr_1 (Build_shr_record m r s) in
    shr_m mrs = m / 2 ^ Z.of_nat k
    /\ (loc_of_shr_record mrs = loc_Exact
        <-> r = false /\ s = false /\ m mod 2 ^ Z.of_nat k = 0).
Proof.
  intros Hm. induction k as [|k IH]; cbn zeta in *.
  - change (Z.of_nat 0) with 0. rewrite Z.pow_0_r. cbn [Nat.iter nat_rect shr_m]. rewrite Z.div_1_r, Z.mod_1_r.
    split; [reflexivity|]. destruct r, s; cbn; intuition discriminate.
  - rewrite Nat.iter_succ. destruct IH as [IHm IHl].
    destruct (Nat.iter k shr_1 (Build_shr_record m r s)) as [mk rk sk].
    cbn [shr_m] in IHm.
    assert (Hk : 0 < 2 ^ Z.of_nat k) by (apply Z.pow_pos_nonneg; lia).
    assert (Hmk : 0 <= mk) by (subst mk; apply Z.div_pos; lia).
    destruct (shr_1_spec mk rk sk Hmk) as [Hm1 Hl1].
    rewrite Nat2Z.inj_succ, Z.pow_succ_r by lia.
    split.
    + rewrite Hm1, IHm, Z.div_div by lia. f_equal. lia.
    + rewrite Hl1. rewrite (Z.mul_comm 2), Z.rem_mul_r by lia.
      assert (Hrs : rk = false /\ sk = false <-> r = false /\ s = false /\ m mod 2 ^ Z.of_nat k = 0).
      { rewrite <- IHl. destruct rk, sk; cbn; intuition discriminate. }
      pose proof (Z.mod_pos_bound m (2 ^ Z.of_nat k) Hk).
      pose proof (Z.mod_pos_bound mk 2 ltac:(lia)).
      subst mk. split.
      * intros (Hr & Hs & Hmod). destruct Hrs as [Hrs _].
        destruct (Hrs (conj Hr Hs)) as (-> & -> & E). repeat split; auto.
        rewrite E, Hmod. lia.
      * intros (-> & -> & E).
        assert (E0 : m mod 2 ^ Z.of_nat k = 0) by nia.
        destruct Hrs as [_ Hrs]. destruct (Hrs ltac:(auto)) as [-> ->].
        repeat split; auto. nia.
Qed.

Lemma shr_record_of_loc_spec (m : Z) (l : location) :
  exists r s, shr_record_of_loc m l = Build_shr_record m r s
              /\ (r = false /\ s = false <-> l = loc_Exact).
Proof.
  destruct l as [|[| |]]; cbn; eexists _, _; (split; [reflexivity|]);
    intuition discriminate.
Qed.

(** [shr_fexp] shifts right by [n = fexp (digits m + e) - e] places when
    [n > 0], keeping whether anything was lost. *)
Lemma shr_fexp_spec (m e : Z) (l : location) :
  0 <= m ->
  let n := Z.max (fexp prec emax (Zdigits2 m + e) - e) 0 in
  exists mrs,
    shr_fexp prec emax m e l = (mrs, e + n)
    /\ shr_m mrs = m / 2 ^ n
    /\ (loc_of_shr_record mrs = loc_Exact <-> l = loc_Exact /\ m mod 2 ^ n = 0).
Proof.
  intros Hm n. unfold shr_fexp, shr. to_BinInt. fold (Zdigits2 m).
  destruct (shr_record_of_loc_spec m l) as (r & s & -> & Hl).
  destruct (fexp prec emax (Zdigits2 m + e) - e) as [|p|p] eqn:En; subst n.
  - exists (Build_shr_record m r s). cbn [Z.max Z.compare shr_m].
    rewrite Z.add_0_r, Z.div_1_r, Z.mod_1_r. split; [reflexivity|]. split; [reflexivity|].
    rewrite <- Hl. destruct r, s; cbn; intuition discriminate.
  - rewrite iter_pos_nat.
    replace (Z.max (Zpos p) 0) with (Z.of_nat (Pos.to_nat p)) by lia.
    destruct (shr_iter_spec m r s Hm (Pos.to_nat p)) as [H1 H2].
    eexists. split; [f_equal; lia|]. split; [exact H1|].
    rewrite H2. tauto.
  - exists (Build_shr_record m r s). cbn [Z.max Z.compare shr_m].
    rewrite Z.add_0_r, Z.div_1_r, Z.mod_1_r. split; [reflexivity|]. split; [reflexivity|].
    rewrite <- Hl. destruct r, s; cbn; intuition discriminate.
Qed.

Lemma round_nearest_even_cases (m : Z) (l : location) :
  round_nearest_even m l = m
  \/ (round_nearest_even m l = m + 1 /\ l <> loc_Exact).
Proof.
  destruct l as [|[| |]]; cbn [round_nearest_even]; to_BinInt; auto.
  - destruct (Z.even m); [auto | right; split; [reflexivity | discriminate]].
  - right. split; [reflexivity | discriminate].
Qed.

(** ** Rounding stays between the neighbouring binary64 numbers *)

Lemma pow2_pos (n : Z) : 0 <= n -> 0 < 2 ^ n.
Proof. intros; apply Z.pow_pos_nonneg; lia. Qed.

Lemma pow2_add (a b : Z) : 0 <= a -> 0 <= b -> 2 ^ (a + b) = 2 ^ a * 2 ^ b.
Proof. intros; apply Z.pow_add_r; assumption. Qed.

Lemma pow2_le (a b : Z) : a <= b -> 2 ^ a <= 2 ^ b.
Proof.
  intros H. destruct (Z_lt_le_dec a 0) as [Ha|Ha].
  - rewrite (Z.pow_neg_r 2 a Ha). apply Z.pow_nonneg. lia.
  - apply Z.pow_le_mono_r; lia.
Qed.

Lemma mul_lt_cancel (k m g : Z) : 0 < g -> k * g < (m + 1) * g -> k <= m.
Proof. intros Hg H. apply Z.mul_lt_mono_pos_r in H; lia. Qed.

Lemma mul_gt_cancel (k m g : Z) : 0 < g -> m * g < k * g -> m + 1 <= k.
Proof. intros Hg H. apply Z.mul_lt_mono_pos_r in H; lia. Qed.

Lemma bracket_shift (mx m1 rem P B X : Z) :
  0 < P -> 0 < B -> mx = P * m1 + rem -> 0 <= rem < P ->
  mx * B <= X < (mx + 1) * B ->
  m1 * (P * B) <= X < (m1 + 1) * (P * B).
Proof. intros HP HB -> Hr [H1 H2]. split; nia. Qed.

Lemma exact_shift (mx m1 rem P B X : Z) :
  0 < P -> 0 < B -> mx = P * m1 + rem -> 0 <= rem < P ->
  mx * B <= X ->
  (X = mx * B /\ rem = 0 <-> X = m1 * (P * B)).
Proof.
  intros HP HB -> Hr H1. split.
  - intros [-> ->]. ring.
  - intros ->. assert (rem * B <= 0) by nia.
    assert (rem = 0) by nia. subst rem. split; [ring | reflexivity].
Qed.

Lemma grid_lower (k m1 G X : Z) :
  0 < G -> k * G <= X -> X < (m1 + 1) * G -> k * G <= m1 * G.
Proof.
  intros HG H1 H2. pose proof (mul_lt_cancel k m1 G HG ltac:(lia)).
  apply Z.mul_le_mono_nonneg_r; lia.
Qed.

Lemma grid_upper (k m1 G X : Z) :
  0 < G -> X <= k * G -> m1 * G < X -> (m1 + 1) * G <= k * G.
Proof.
  intros HG H1 H2. pose proof (mul_gt_cancel k m1 G HG ltac:(lia)).
  apply Z.mul_le_mono_nonneg_r; lia.
Qed.

Lemma below_normal (C P1 T G m1 : Z) :
  0 < G -> C < P1 -> P1 <= T * G -> T <= m1 -> C < m1 * G.
Proof.
  intros HG H1 H2 H3.
  assert (T * G <= m1 * G) by (apply Z.mul_le_mono_nonneg_r; lia). lia.
Qed.

Lemma binary_round_aux_bracket (sx : bool) (mx ex : Z) (lx : location) (X : Z) :
  0 <= mx -> -1075 <= ex ->
  ex <= fexp prec emax (Zdigits2 mx + ex) ->
  mx * 2 ^ (ex + 1075) <= X < (mx + 1) * 2 ^ (ex + 1075) ->
  (lx = loc_Exact <-> X = mx * 2 ^ (ex + 1075)) ->
  exists q e2,
    0 <= q /\ -1074 <= e2
    /\ binary_round_aux prec emax sx mx ex lx
       = match q with
         | Z0 => S754_zero sx
         | Zpos p => if e2 <=? 971 then S754_finite sx p e2 else S754_infinity sx
         | Zneg _ => S754_nan
         end
    /\ (forall mc ec, bounded prec emax mc ec = true ->
          Zpos mc * 2 ^ (ec + 1075) <= X ->
          Zpos mc * 2 ^ (ec + 1075) <= q * 2 ^ (e2 + 1075))
    /\ (forall mc ec, bounded prec emax mc ec = true ->
          X <= Zpos mc * 2 ^ (ec + 1075) ->
          q * 2 ^ (e2 + 1075) <= Zpos mc * 2 ^ (ec + 1075) /\ e2 <= 971).
Proof.
  intros Hmx Hex Halign HX Hexact.
  unfold binary_round_aux.
  (* first shift *)
  destruct (shr_fexp_spec mx ex lx Hmx) as (mrs1 & -> & Hm1 & Hl1).
  rewrite fexp64 in *.
  set (n := Z.max (Z.max (Zdigits2 mx + ex - 53) (-1074) - ex) 0) in *.
  set (e1 := ex + n) in *.
  set (m1 := shr_m mrs1) in *.
  assert (Hn : 0 <= n) by (unfold n; lia).
  assert (He1 : e1 = Z.max (Zdigits2 mx + ex - 53) (-1074)) by (unfold e1, n; lia).
  assert (HP : 0 < 2 ^ n) by (apply pow2_pos; lia).
  assert (HB : 0 < 2 ^ (ex + 1075)) by (apply pow2_pos; lia).
  assert (HG : 2 ^ (e1 + 1075) = 2 ^ n * 2 ^ (ex + 1075)).
  { unfold e1. replace (ex + n + 1075) with (n + (ex + 1075)) by lia.
    apply pow2_add; lia. }
  assert (HGpos : 0 < 2 ^ (e1 + 1075)) by (apply pow2_pos; lia).
  pose proof (Z.div_mod mx (2 ^ n) ltac:(lia)) as Hdm.
  pose proof (Z.mod_pos_bound mx (2 ^ n) HP) as Hrem.
  fold m1 in Hm1. rewrite <- Hm1 in Hdm.
  assert (Hm1nn : 0 <= m1) by (rewrite Hm1; apply Z.div_pos; lia).
  pose proof (bracket_shift _ _ _ _ _ _ HP HB Hdm Hrem HX) as Hbr.
  rewrite <- HG in Hbr. destruct Hbr as [Hlo1 Hhi1].
  assert (Hex1 : loc_of_shr_record mrs1 = loc_Exact <-> X = m1 * 2 ^ (e1 + 1075)).
  { rewrite Hl1, Hexact, HG.
    exact (exact_shift _ _ _ _ _ _ HP HB Hdm Hrem (proj1 HX)). }
  assert (Hm1lt : m1 < 2 ^ 53).
  { destruct (Z.eq_dec mx 0) as [E0|Hne].
    - rewrite Hm1, E0, Z.div_0_l by lia. apply pow2_pos; lia.
    - destruct (Zdigits2_bounds mx ltac:(lia)) as [_ Hd].
      rewrite Hm1. apply Z.div_lt_upper_bound; [lia|].
      rewrite <- pow2_add by lia.
      pose proof (pow2_le (Zdigits2 mx) (n + 53) ltac:(unfold n; lia)). lia. }
  assert (Hnormal : -1074 < e1 -> 2 ^ 52 <= m1).
  { intros Hgt. assert (Hd : n = Zdigits2 mx - 53) by (unfold n; lia).
    assert (Hmxpos : 0 < mx).
    { destruct mx as [|p|p]; [cbn [Zdigits2] in Hd|lia|lia]. lia. }
    destruct (Zdigits2_bounds mx Hmxpos) as [Hd1 _].
    rewrite Hm1. apply Z.div_le_lower_bound; [lia|].
    rewrite <- pow2_add by lia.
    replace (n + 52) with (Zdigits2 mx - 1) by lia. exact Hd1. }
  clear Hdm Hrem Hl1 Hexact HX Halign HG HP HB.
  (* rounding *)
  set (q1 := round_nearest_even m1 (loc_of_shr_record mrs1)).
  assert (Hq1 : q1 = m1 \/ (q1 = m1 + 1 /\ m1 * 2 ^ (e1 + 1075) < X)).
  { destruct (round_nearest_even_cases m1 (loc_of_shr_record mrs1)) as [E|[E Hne]];
      [now left|right]. split; [exact E|].
    destruct (Z.eq_dec X (m1 * 2 ^ (e1 + 1075))) as [EX|NX]; [|lia].
    apply Hex1 in EX. contradiction. }
  clearbody q1. clear Hex1.
  assert (Hq1nn : 0 <= q1) by lia.
  (* second shift *)
  destruct (shr_fexp_spec q1 e1 loc_Exact Hq1nn) as (mrs2 & -> & Hm2 & _).
  rewrite fexp64 in *.
  set (n2 := Z.max (Z.max (Zdigits2 q1 + e1 - 53) (-1074) - e1) 0) in *.
  assert (Hsecond : (n2 = 0 /\ q1 < 2 ^ 53) \/ (n2 = 1 /\ q1 = 2 ^ 53)).
  { destruct (Z_lt_le_dec q1 (2 ^ 53)) as [Hlt|Hge].
    - left. split; [|exact Hlt].
      pose proof (Zdigits2_le q1 53 ltac:(lia) ltac:(lia)). unfold n2. lia.
    - right. assert (Eq1 : q1 = 2 ^ 53) by lia. split; [|exact Eq1].
      unfold n2. rewrite Eq1. change (Zdigits2 (2 ^ 53)) with 54. lia. }
  clearbody n2.
  exists (shr_m mrs2), (e1 + n2).
  assert (Hval : shr_m mrs2 * 2 ^ (e1 + n2 + 1075) = q1 * 2 ^ (e1 + 1075)
                 /\ 0 <= shr_m mrs2
                 /\ (-1074 < e1 + n2 -> 2 ^ 52 <= shr_m mrs2)).
  { destruct Hsecond as [[-> Hlt]|[-> Eq1]].
    - rewrite Hm2, Z.pow_0_r, Z.div_1_r, Z.add_0_r.
      repeat split; [lia|]. intros Hgt.
      specialize (Hnormal Hgt). lia.
    - rewrite Hm2, Eq1. change (2 ^ 53 / 2 ^ 1) with (2 ^ 52).
      replace (e1 + 1 + 1075) with (1 + (e1 + 1075)) by lia.
      rewrite pow2_add by lia. change (2 ^ 53) with (2 ^ 52 * 2 ^ 1).
      repeat split; lia. }
  destruct Hval as (Hval & Hqnn & Hqnormal).
  split; [exact Hqnn|]. split; [lia|]. split.
  { change (emax - prec) with 971. reflexivity. }
  rewrite Hval.
  assert (Hgrid : forall mc ec, bounded prec emax mc ec = true ->
            (exists k, Zpos mc * 2 ^ (ec + 1075) = k * 2 ^ (e1 + 1075))
            \/ Zpos mc * 2 ^ (ec + 1075) < m1 * 2 ^ (e1 + 1075)).
  { intros mc ec Hc. destruct (Z_le_gt_dec e1 ec) as [Hle|Hgt].
    - left. exists (Zpos mc * 2 ^ (ec - e1)).
      replace (ec + 1075) with ((ec - e1) + (e1 + 1075)) by lia.
      rewrite pow2_add by lia. ring.
    - right. pose proof (bounded_inv _ _ Hc) as (Hec & _).
      assert (Hgt1 : -1074 < e1) by lia.
      pose proof (bounded_value_lt _ _ Hc) as Hlt.
      pose proof (pow2_le (ec + 1128) (52 + (e1 + 1075)) ltac:(lia)) as Hp.
      rewrite (pow2_add 52 (e1 + 1075)) in Hp by lia.
      exact (below_normal _ _ _ _ _ HGpos Hlt Hp (Hnormal Hgt1)). }
  assert (Hupper : forall mc ec, bounded prec emax mc ec = true ->
            X <= Zpos mc * 2 ^ (ec + 1075) ->
            q1 * 2 ^ (e1 + 1075) <= Zpos mc * 2 ^ (ec + 1075)).
  { intros mc ec Hc HC.
    destruct Hq1 as [->|[-> Hstrict]]; [lia|].
    destruct (Hgrid mc ec Hc) as [[k Hk]|Hlt]; [|lia].
    rewrite Hk in *. exact (grid_upper _ _ _ _ HGpos HC Hstrict). }
  split.
  - intros mc ec Hc HC.
    assert (Zpos mc * 2 ^ (ec + 1075) <= m1 * 2 ^ (e1 + 1075)).
    { destruct (Hgrid mc ec Hc) as [[k Hk]|Hlt]; [|lia].
      rewrite Hk in *. exact (grid_lower _ _ _ _ HGpos HC Hhi1). }
    assert (m1 * 2 ^ (e1 + 1075) <= q1 * 2 ^ (e1 + 1075))
      by (apply Z.mul_le_mono_nonneg_r; lia).
    lia.
  - intros mc ec Hc HC. split; [now apply Hupper|].
    destruct (Z_le_gt_dec (e1 + n2) 971) as [|Hover]; [assumption|exfalso].
    specialize (Hqnormal ltac:(lia)).
    pose proof (Hupper mc ec Hc HC) as Hle. rewrite <- Hval in Hle.
    pose proof (bounded_inv _ _ Hc) as (Hec & _).
    pose proof (bounded_value_lt _ _ Hc) as Hlt.
    pose proof (pow2_le (ec + 1128) (52 + (e1 + n2 + 1075)) ltac:(lia)) as Hp.
    rewrite (pow2_add 52 (e1 + n2 + 1075)) in Hp by lia.
    assert (HW : 0 < 2 ^ (e1 + n2 + 1075)) by (apply pow2_pos; lia).
    pose proof (below_normal _ _ _ _ _ HW Hlt Hp Hqnormal). lia.
Qed.

(** ** Signed results *)

Lemma signed_bracket (sx : bool) (X : Z) (r : spec_float) (q e2 : Z) :
  0 < X -> 0 <= q -> -1074 <= e2 ->
  r = match q with
      | Z0 => S754_zero sx
      | Zpos p => if e2 <=? 971 then S754_finite sx p e2 else S754_infinity sx
      | Zneg _ => S754_nan
      end ->
  (forall mc ec, bounded prec emax mc ec = true ->
     Zpos mc * 2 ^ (ec + 1075) <= X ->
     Zpos mc * 2 ^ (ec + 1075) <= q * 2 ^ (e2 + 1075)) ->
  (forall mc ec, bounded prec emax mc ec = true ->
     X <= Zpos mc * 2 ^ (ec + 1075) ->
     q * 2 ^ (e2 + 1075) <= Zpos mc * 2 ^ (ec + 1075) /\ e2 <= 971) ->
  forall c, valid_binary c = true -> SFfinite c ->
    (SFval c <= cond_Zopp sx X -> SFge_val r (SFval c))
    /\ (cond_Zopp sx X <= SFval c -> SFle_val r (SFval c)).
Proof.
  intros HX Hq He2 Hr G1 G2 c Hc Fc.
  assert (HW : 0 < 2 ^ (e2 + 1075)) by (apply pow2_pos; lia).
  assert (Hrnn : 0 <= q * 2 ^ (e2 + 1075)) by (apply Z.mul_nonneg_nonneg; lia).
  (* the shape of [r] when no overflow occurs *)
  assert (Hfin : e2 <= 971 ->
                 SFfinite r /\ SFval r = cond_Zopp sx (q * 2 ^ (e2 + 1075))).
  { intros Hle. subst r. destruct q as [|p|p]; [| |lia].
    - split; [exact I|]. destruct sx; reflexivity.
    - apply Z.leb_le in Hle. rewrite Hle. split; [exact I|reflexivity]. }
  (* the shape of [r] in general *)
  assert (Hgen : r = S754_infinity sx
                 \/ (SFfinite r /\ SFval r = cond_Zopp sx (q * 2 ^ (e2 + 1075)))).
  { destruct (Z_le_gt_dec e2 971) as [Hle|Hgt]; [right; auto|].
    subst r. destruct q as [|p|p]; [| |lia].
    - right. split; [exact I|]. destruct sx; reflexivity.
    - left. replace (e2 <=? 971) with false by (symmetry; apply Z.leb_gt; lia).
      reflexivity. }
  destruct c as [sc| | |sc mc ec]; try contradiction; cbn [SFval valid_binary] in *.
  - (* c is a zero *)
    destruct sx; cbn [cond_Zopp] in *; split; intros H; try lia.
    + destruct Hgen as [->|[Fr Vr]]; [now left|right]. split; [exact Fr|]. lia.
    + destruct Hgen as [->|[Fr Vr]]; [now left|right]. split; [exact Fr|]. lia.
  - (* c is a number *)
    pose proof (bounded_inv _ _ Hc) as (Hec & _).
    assert (HC : 0 < Zpos mc * 2 ^ (ec + 1075)).
    { apply Z.mul_pos_pos; [lia | apply pow2_pos; lia]. }
    specialize (G1 mc ec Hc). specialize (G2 mc ec Hc).
    destruct sx, sc; cbn [cond_Zopp] in *; split; intros H; try lia.
    + (* negative result, negative bound below *)
      destruct (G2 ltac:(lia)) as [Hle He]. destruct (Hfin He) as [Fr Vr].
      right. split; [exact Fr|]. lia.
    + (* negative result, negative bound above *)
      specialize (G1 ltac:(lia)).
      destruct Hgen as [->|[Fr Vr]]; [now left|right]. split; [exact Fr|]. lia.
    + (* negative result, positive bound above *)
      destruct Hgen as [->|[Fr Vr]]; [now left|right]. split; [exact Fr|]. lia.
    + (* positive result, negative bound below *)
      destruct Hgen as [->|[Fr Vr]]; [now left|right]. split; [exact Fr|]. lia.
    + (* positive result, positive bound below *)
      specialize (G1 ltac:(lia)).
      destruct Hgen as [->|[Fr Vr]]; [now left|right]. split; [exact Fr|]. lia.
    + (* positive result, positive bound above *)
      destruct (G2 ltac:(lia)) as [Hle He]. destruct (Hfin He) as [Fr Vr].
      right. split; [exact Fr|]. lia.
Qed.

(** ** Addition *)

Lemma iter_xO_value (m d : positive) :
  Zpos (Pos.iter xO m d) = Zpos m * 2 ^ Zpos d.
Proof.
  induction d as [|d IH] using Pos.peano_ind.
  - cbn [Pos.iter]. change (2 ^ 1) with 2. lia.
  - rewrite Pos.iter_succ, Pos2Z.inj_succ, Z.pow_succ_r, Pos2Z.inj_xO, IH by lia. ring.
Qed.

Lemma Zdigits2_mul_pow2 (m k : Z) :
  0 < m -> 0 <= k -> Zdigits2 (m * 2 ^ k) = Zdigits2 m + k.
Proof.
  intros Hm Hk. destruct (Zdigits2_bounds m Hm) as [Hlo Hhi].
  pose proof (Zdigits2_nonneg m) as Hd.
  assert (H2k : 0 < 2 ^ k) by (apply pow2_pos; lia).
  assert (Hdpos : 0 < Zdigits2 m).
  { destruct m as [|p|p]; try lia. cbn [Zdigits2]. lia. }
  apply Z.le_antisymm.
  - apply Zdigits2_le; [lia|]. split; [nia|].
    rewrite pow2_add by lia. apply Z.mul_lt_mono_pos_r; lia.
  - apply Zdigits2_ge; [|nia].
    replace (Zdigits2 m + k - 1) with ((Zdigits2 m - 1) + k) by lia.
    rewrite pow2_add by lia. apply Z.mul_le_mono_nonneg_r; lia.
Qed.

Lemma shl_align_spec (mx : positive) (ex ex' : Z) :
  exists mz, shl_align mx ex ex' = (mz, Z.min ex ex')
             /\ Zpos mz = Zpos mx * 2 ^ (ex - Z.min ex ex').
Proof.
  unfold shl_align. to_BinInt.
  destruct (ex' - ex) as [|d|d] eqn:E.
  - exists mx. replace (Z.min ex ex') with ex by lia.
    rewrite Z.sub_diag. split; [reflexivity | cbn; lia].
  - exists mx. replace (Z.min ex ex') with ex by lia.
    rewrite Z.sub_diag. split; [reflexivity | cbn; lia].
  - eexists. replace (Z.min ex ex') with ex' by lia.
    split; [reflexivity|]. rewrite iter_xO_value. f_equal. f_equal. lia.
Qed.

Lemma binary_round_bracket (sx : bool) (mx : positive) (ex : Z) :
  -1075 <= ex ->
  forall c, valid_binary c = true -> SFfinite c ->
    (SFval c <= cond_Zopp sx (Zpos mx * 2 ^ (ex + 1075)) ->
     SFge_val (binary_round prec emax sx mx ex) (SFval c))
    /\ (cond_Zopp sx (Zpos mx * 2 ^ (ex + 1075)) <= SFval c ->
        SFle_val (binary_round prec emax sx mx ex) (SFval c)).
Proof.
  intros Hex. unfold binary_round. to_BinInt. rewrite fexp64.
  set (e' := Z.max (Zpos (digits2_pos mx) + ex - 53) (-1074)).
  destruct (shl_align_spec mx ex e') as (mz & -> & Hmz).
  set (ez := Z.min ex e') in *.
  assert (Hez : -1075 <= ez) by (unfold ez, e'; lia).
  assert (Hk : 0 <= ex - ez) by (unfold ez; lia).
  assert (Hval : Zpos mx * 2 ^ (ex + 1075) = Zpos mz * 2 ^ (ez + 1075)).
  { rewrite Hmz. replace (ex + 1075) with ((ex - ez) + (ez + 1075)) by lia.
    rewrite pow2_add by lia. ring. }
  assert (Hdig : Zdigits2 (Zpos mz) + ez = Zpos (digits2_pos mx) + ex).
  { rewrite Hmz, Zdigits2_mul_pow2 by lia. cbn [Zdigits2]. lia. }
  assert (HB : 0 < 2 ^ (ez + 1075)) by (apply pow2_pos; lia).
  destruct (binary_round_aux_bracket sx (Zpos mz) ez loc_Exact
              (Zpos mz * 2 ^ (ez + 1075)))
    as (q & e2 & Hq & He2 & Hr & G1 & G2).
  - lia.
  - exact Hez.
  - rewrite fexp64, Hdig. fold e'. unfold ez. lia.
  - split; [lia | nia].
  - tauto.
  - rewrite Hval. apply (signed_bracket sx _ _ q e2); auto. nia.
Qed.

Lemma SFadd_bracket (x y : spec_float) :
  valid_binary x = true -> valid_binary y = true ->
  SFfinite x -> SFfinite y ->
  forall c, valid_binary c = true -> SFfinite c ->
    (SFval c <= SFval x + SFval y -> SFge_val (SF64add x y) (SFval c))
    /\ (SFval x + SFval y <= SFval c -> SFle_val (SF64add x y) (SFval c)).
Proof.
  intros Hx Hy Fx Fy c Hc Fc.
  assert (Hself : forall r, SFfinite r ->
            (SFval c <= SFval r -> SFge_val r (SFval c))
            /\ (SFval r <= SFval c -> SFle_val r (SFval c))).
  { intros r Fr. split; intros H; right; auto. }
  destruct x as [sx| | |sx mx ex], y as [sy| | |sy my ey]; try contradiction.
  - (* zero + zero *)
    assert (E : exists s, SF64add (S754_zero sx) (S754_zero sy) = S754_zero s)
      by (destruct sx, sy; eexists; reflexivity).
    destruct E as [s ->]. exact (Hself (S754_zero s) I).
  - exact (Hself (S754_finite sy my ey) I).
  - cbn [SFval]. rewrite Z.add_0_r. exact (Hself (S754_finite sx mx ex) I).
  - (* number + number *)
    cbn [valid_binary] in Hx, Hy.
    pose proof (bounded_inv _ _ Hx) as (Hex & _).
    pose proof (bounded_inv _ _ Hy) as (Hey & _).
    unfold SF64add, SFadd. to_BinInt.
    set (ez := Z.min ex ey).
    destruct (shl_align_spec mx ex ez) as (mx' & -> & Hmx').
    destruct (shl_align_spec my ey ez) as (my' & -> & Hmy').
    cbn [fst].
    replace (Z.min ex ez) with ez in Hmx' by (unfold ez; lia).
    replace (Z.min ey ez) with ez in Hmy' by (unfold ez; lia).
    assert (Hez : -1074 <= ez) by (unfold ez; lia).
    assert (Hsum : SFval (S754_finite sx mx ex) + SFval (S754_finite sy my ey)
                   = (cond_Zopp sx (Zpos mx') + cond_Zopp sy (Zpos my'))
                     * 2 ^ (ez + 1075)).
    { cbn [SFval]. rewrite Hmx', Hmy'.
      replace (ex + 1075) with ((ex - ez) + (ez + 1075)) by lia.
      replace (ey + 1075) with ((ey - ez) + (ez + 1075)) by lia.
      rewrite (pow2_add (ex - ez) (ez + 1075)), (pow2_add (ey - ez) (ez + 1075))
        by (unfold ez; lia).
      destruct sx, sy; cbn [cond_Zopp]; ring. }
    rewrite Hsum.
    destruct (cond_Zopp sx (Zpos mx') + cond_Zopp sy (Zpos my')) as [|M|M];
      cbn [binary_normalize].
    + rewrite Z.mul_0_l. exact (Hself (S754_zero false) I).
    + exact (binary_round_bracket false M ez ltac:(lia) c Hc Fc).
    + replace (Zneg M * 2 ^ (ez + 1075))
        with (cond_Zopp true (Zpos M * 2 ^ (ez + 1075)))
        by (cbn [cond_Zopp]; rewrite <- Pos2Z.opp_pos; ring).
      exact (binary_round_bracket true M ez ltac:(lia) c Hc Fc).
Qed.

(** ** Halving *)

Lemma Prim2SF_two : Prim2SF 2 = SFtwo.
Proof. reflexivity. Qed.

Lemma quotient_bracket (T G X q r : Z) :
  0 < T -> 0 < G -> T * X = (T * q + r) * G -> 0 <= r < T ->
  q * G <= X < (q + 1) * G /\ (r = 0 <-> X = q * G).
Proof.
  intros HT HG HX Hr.
  assert (H1 : T * (q * G) <= T * X) by nia.
  assert (H2 : T * X < T * ((q + 1) * G)) by nia.
  apply Z.mul_le_mono_pos_l in H1; [|exact HT].
  apply Z.mul_lt_mono_pos_l in H2; [|exact HT].
  split; [split; assumption|]. split.
  - intros ->. rewrite Z.add_0_r in HX.
    apply (Z.mul_cancel_l _ _ T); [lia|]. rewrite HX. ring.
  - intros ->. assert (r * G = 0) by nia. nia.
Qed.

Lemma SFdiv2_bracket (x : spec_float) :
  valid_binary x = true -> SFfinite x ->
  forall c, valid_binary c = true -> SFfinite c ->
    (2 * SFval c <= SFval x -> SFge_val (SF64div x SFtwo) (SFval c))
    /\ (SFval x <= 2 * SFval c -> SFle_val (SF64div x SFtwo) (SFval c)).
Proof.
  intros Hx Fx c Hc Fc.
  destruct x as [sx| | |sx mx ex]; try contradiction.
  - cbn [SF64div SFdiv SFtwo SFval].
    split; intros H; right; (split; [exact I|]); cbn [SFval]; lia.
  - cbn [valid_binary] in Hx.
    pose proof (bounded_inv _ _ Hx) as (Hex & Hd53 & _).
    set (d1 := Zpos (digits2_pos mx)) in *.
    set (X := Zpos mx * 2 ^ (ex + 1074)).
    assert (HX : 0 < X).
    { apply Z.mul_pos_pos; [lia | apply pow2_pos; lia]. }
    assert (Hx2 : SFval (S754_finite sx mx ex) = 2 * cond_Zopp sx X).
    { cbn [SFval]. unfold X.
      replace (ex + 1075) with (1 + (ex + 1074)) by lia.
      rewrite pow2_add by lia. change (2 ^ 1) with 2.
      destruct sx; cbn [cond_Zopp]; ring. }
    rewrite Hx2.
    unfold SF64div, SFdiv, SFtwo, SFdiv_core_binary. to_BinInt.
    change (Zdigits2 4503599627370496) with 53.
    cbn [Zdigits2]. fold d1. rewrite fexp64.
    set (e' := Z.min (Z.max (d1 + ex - (53 + -51) - 53) (-1074)) (ex - -51)).
    assert (He' : e' = Z.max (d1 + ex - 55) (-1074)) by (unfold e'; lia).
    destruct (ex - -51 - e') as [|s|s] eqn:Es; try lia.
    rewrite Z.shiftl_mul_pow2 by lia.
    pose proof (Z_div_mod (Zpos mx * 2 ^ Zpos s) 4503599627370496 ltac:(lia)) as Hdm.
    destruct (Z.div_eucl (Zpos mx * 2 ^ Zpos s) 4503599627370496) as [q r].
    destruct Hdm as [Hdm Hr].
    assert (HG : 0 < 2 ^ (e' + 1075)) by (apply pow2_pos; lia).
    assert (Hm' : 0 < Zpos mx * 2 ^ Zpos s).
    { apply Z.mul_pos_pos; [lia | apply pow2_pos; lia]. }
    assert (Hq : 0 <= q) by nia.
    assert (HTX : 4503599627370496 * X
                  = (4503599627370496 * q + r) * 2 ^ (e' + 1075)).
    { rewrite <- Hdm. unfold X. change 4503599627370496 with (2 ^ 52).
      rewrite <- Z.mul_assoc, <- pow2_add by lia.
      rewrite (Z.mul_comm (2 ^ 52)), <- Z.mul_assoc, <- pow2_add by lia.
      f_equal. f_equal. lia. }
    destruct (quotient_bracket 4503599627370496 _ _ _ _ ltac:(lia) HG HTX Hr)
      as [Hbr Hexact].
    assert (Hloc : new_location 4503599627370496 r = loc_Exact <-> r = 0).
    { unfold new_location. change (Z.even 4503599627370496) with true.
      unfold new_location_even. to_BinInt.
      destruct (Z.eqb_spec r 0) as [->|Hne]; split; intros H;
        try reflexivity; try discriminate; contradiction. }
    assert (Halign : e' <= fexp prec emax (Zdigits2 q + e')).
    { rewrite fexp64. destruct (Z.eq_dec e' (-1074)) as [->|Hne]; [lia|].
      assert (Es' : Zpos s = 106 - d1) by lia.
      destruct (digits2_pos_bounds mx) as [Hlo _]. fold d1 in Hlo.
      assert (Hq53 : 2 ^ 53 <= q).
      { assert (H105 : 2 ^ 105 <= Zpos mx * 2 ^ Zpos s).
        { replace 105 with ((d1 - 1) + Zpos s) by lia.
          rewrite pow2_add by lia.
          apply Z.mul_le_mono_nonneg_r; [apply Z.lt_le_incl, pow2_pos|]; lia. }
        change (2 ^ 105) with (4503599627370496 * 2 ^ 53) in H105. lia. }
      pose proof (Zdigits2_ge q 54 Hq53 ltac:(lia)). lia. }
    destruct (binary_round_aux_bracket (xorb sx false) q e'
                (new_location 4503599627370496 r) X
                Hq ltac:(lia) Halign Hbr)
      as (q' & e2 & Hq' & He2 & Hres & G1 & G2).
    { rewrite Hloc. exact Hexact. }
    rewrite xorb_false_r in *.
    destruct (signed_bracket sx X _ q' e2 HX Hq' He2 Hres G1 G2 c Hc Fc)
      as [Hge Hle].
    split; intros H; [apply Hge | apply Hle]; lia.
Qed.

(** ** Primitive floats: order and midpoint *)

Close Scope Z_scope.

Lemma leb_val (x y : float) :
  fin x -> fin y -> ((x <=? y) = true <-> (val x <= val y)%Z).
Proof.
  intros Fx Fy. rewrite leb_spec. unfold SFleb.
  rewrite (SFcompare_val _ _ (Prim2SF_valid x) (Prim2SF_valid y) Fx Fy).
  fold (val x) (val y).
  destruct (Z.compare_spec (val x) (val y)); split; intros H';
    try reflexivity; try discriminate; lia.
Qed.

Lemma ltb_val (x y : float) :
  fin x -> fin y -> ((x <? y) = true <-> (val x < val y)%Z).
Proof.
  intros Fx Fy. rewrite ltb_spec. unfold SFltb.
  rewrite (SFcompare_val _ _ (Prim2SF_valid x) (Prim2SF_valid y) Fx Fy).
  fold (val x) (val y).
  destruct (Z.compare_spec (val x) (val y)); split; intros H';
    try reflexivity; try discriminate; lia.
Qed.

(** A float strictly between two numbers is a number. *)
Lemma ltb_ltb_fin (a x b : float) :
  fin a -> fin b -> (a <? x) = true -> (x <? b) = true -> fin x.
Proof.
  unfold fin. rewrite !ltb_spec. unfold SFltb.
  destruct (Prim2SF a) as [sa| | |sa ma ea]; try contradiction;
    destruct (Prim2SF b) as [sb| | |sb mb eb]; try contradiction;
    destruct (Prim2SF x) as [s|[|]| |s m e]; cbn; intros _ _ H1 H2;
    try exact I; try discriminate;
    destruct sa; try discriminate; destruct sb; discriminate.
Qed.

Lemma leb_leb_fin (a x b : float) :
  fin a -> fin b -> (a <=? x) = true -> (x <=? b) = true -> fin x.
Proof.
  unfold fin. rewrite !leb_spec. unfold SFleb.
  destruct (Prim2SF a) as [sa| | |sa ma ea]; try contradiction;
    destruct (Prim2SF b) as [sb| | |sb mb eb]; try contradiction;
    destruct (Prim2SF x) as [s|[|]| |s m e]; cbn; intros _ _ H1 H2;
    try exact I; try discriminate;
    destruct sa; try discriminate; destruct sb; discriminate.
Qed.

Lemma SFdouble_spec (x : spec_float) :
  valid_binary x = true -> SFfinite x ->
  (Z.abs (SFval x) < 2 ^ 2098)%Z ->
  valid_binary (SFdouble x) = true /\ SFfinite (SFdouble x)
  /\ SFval (SFdouble x) = (2 * SFval x)%Z.
Proof.
  destruct x as [s| | |s m e]; try contradiction; intros Hx _ Hb;
    [repeat split|].
  cbn [valid_binary] in Hx. pose proof (bounded_inv _ _ Hx) as (He & Hd & Hn).
  cbn [SFdouble]. destruct (Z.ltb_spec (Zpos (digits2_pos m)) 53) as [Hlt|Hge].
  - assert (E : e = (-1074)%Z) by lia. subst e.
    split; [|split; [exact I|]].
    + cbn [valid_binary]. unfold bounded, canonical_mantissa.
      rewrite fexp64. cbn [digits2_pos]. to_BinInt.
      rewrite Pos2Z.inj_succ. apply andb_true_intro. split.
      * apply Z.eqb_eq. lia.
      * apply Z.leb_le. change (emax - prec)%Z with 971%Z. lia.
    + cbn [SFval]. rewrite Pos2Z.inj_xO. destruct s; cbn [cond_Zopp]; ring.
  - assert (Hd53 : Zpos (digits2_pos m) = 53%Z) by lia.
    assert (He971 : (e < 971)%Z).
    { destruct (Z_lt_le_dec e 971) as [|Hbig]; [assumption|exfalso].
      assert (E : e = 971%Z) by lia. subst e.
      pose proof (bounded_value_ge _ _ Hx ltac:(lia)) as Hge'.
      change (971 + 1127)%Z with 2098%Z in Hge'.
      cbn [SFval] in Hb. destruct s; cbn [cond_Zopp] in Hb; lia. }
    split; [|split; [exact I|]].
    + cbn [valid_binary]. unfold bounded, canonical_mantissa.
      rewrite fexp64. to_BinInt. apply andb_true_intro. split.
      * apply Z.eqb_eq. lia.
      * apply Z.leb_le. change (emax - prec)%Z with 971%Z. lia.
    + cbn [SFval]. replace (e + 1 + 1075)%Z with (1 + (e + 1075))%Z by lia.
      rewrite pow2_add by lia. change (2 ^ 1)%Z with 2%Z.
      destruct s; cbn [cond_Zopp]; ring.
Qed.

Lemma SFge_SFle_fin (r : spec_float) (lo hi : Z) :
  SFge_val r lo -> SFle_val r hi -> SFfinite r /\ (lo <= SFval r <= hi)%Z.
Proof.
  intros [->|[F1 H1]] [E|[F2 H2]].
  - discriminate.
  - destruct F2.
  - subst r. destruct F1.
  - split; [assumption | lia].
Qed.

(** The midpoint [(a + b) / 2] of two numbers [a <= b] below [2^1023] in
    magnitude is a number between them. *)
Lemma midpoint_between (a b : float) :
  fin a -> fin b -> (val a <= val b)%Z ->
  (Z.abs (val a) < 2 ^ 2098)%Z -> (Z.abs (val b) < 2 ^ 2098)%Z ->
  fin ((a + b) / 2) /\ (val a <= val ((a + b) / 2) <= val b)%Z.
Proof.
  intros Fa Fb Hab Ba Bb. unfold fin, val in *.
  pose proof (Prim2SF_valid a) as Va. pose proof (Prim2SF_valid b) as Vb.
  destruct (SFdouble_spec _ Va Fa Ba) as (V2a & F2a & E2a).
  destruct (SFdouble_spec _ Vb Fb Bb) as (V2b & F2b & E2b).
  (* the sum lies between [2a] and [2b] *)
  destruct (SFadd_bracket _ _ Va Vb Fa Fb _ V2a F2a) as [Hlo _].
  destruct (SFadd_bracket _ _ Va Vb Fa Fb _ V2b F2b) as [_ Hhi].
  rewrite <- add_spec in Hlo, Hhi.
  destruct (SFge_SFle_fin _ _ _ (Hlo ltac:(lia)) (Hhi ltac:(lia))) as [Fs Hs].
  (* halving it lands between [a] and [b] *)
  pose proof (Prim2SF_valid (a + b)) as Vs.
  destruct (SFdiv2_bracket _ Vs Fs _ Va Fa) as [Hlo' _].
  destruct (SFdiv2_bracket _ Vs Fs _ Vb Fb) as [_ Hhi'].
  rewrite <- Prim2SF_two, <- div_spec in Hlo', Hhi'.
  exact (SFge_SFle_fin _ _ _ (Hlo' ltac:(lia)) (Hhi' ltac:(lia))).
Qed.

(** ** The bisection stays in its bracket *)

Lemma Prim2SF_bisect_bound :
  Prim2SF bisect_bound = S754_finite false 4503599627370496 971.
Proof. reflexivity. Qed.

Lemma Prim2SF_opp_bisect_bound :
  Prim2SF (- bisect_bound) = S754_finite true 4503599627370496 971.
Proof. reflexivity. Qed.

Lemma val_bisect_bound : val bisect_bound = (2 ^ 2098)%Z.
Proof. unfold val. rewrite Prim2SF_bisect_bound. reflexivity. Qed.

Lemma val_opp_bisect_bound : val (- bisect_bound) = (- 2 ^ 2098)%Z.
Proof. unfold val. rewrite Prim2SF_opp_bisect_bound. reflexivity. Qed.

Lemma fin_bisect_bound : fin bisect_bound /\ fin (- bisect_bound).
Proof.
  unfold fin. rewrite Prim2SF_bisect_bound, Prim2SF_opp_bisect_bound.
  split; exact I.
Qed.

Lemma leb_not_nan_l (x y : float) : (x <=? y) = true -> Prim2SF x <> S754_nan.
Proof.
  rewrite leb_spec. unfold SFleb. intros H E. rewrite E in H. discriminate.
Qed.

Lemma ltb_leb_ltb_fin (a lo hi b : float) :
  fin a -> fin b ->
  (a <? lo) = true -> (lo <=? hi) = true -> (hi <? b) = true ->
  fin lo /\ fin hi.
Proof.
  unfold fin. rewrite !ltb_spec, leb_spec. unfold SFltb, SFleb.
  destruct (Prim2SF a) as [sa| | |sa ma ea]; try contradiction;
    destruct (Prim2SF b) as [sb| | |sb mb eb]; try contradiction;
    destruct (Prim2SF lo) as [s1|[|]| |s1 m1 e1];
    destruct (Prim2SF hi) as [s2|[|]| |s2 m2 e2];
    cbn [SFcompare SFfinite]; intros _ _ H1 H2 H3;
    try (split; exact I); try discriminate;
    repeat match goal with
           | H : context [if ?s then _ else _] |- _ => destruct s
           end; discriminate.
Qed.

Lemma bounded_bracket_fin (lo hi : float) :
  bounded_bracket lo hi -> fin lo /\ fin hi.
Proof.
  intros (Hle & Hlo & Hhi). destruct fin_bisect_bound as [FB FB'].
  exact (ltb_leb_ltb_fin (- bisect_bound) lo hi bisect_bound FB' FB Hlo Hle Hhi).
Qed.

Lemma bounded_bracket_val (lo hi : float) :
  bounded_bracket lo hi ->
  fin lo /\ fin hi
  /\ (- 2 ^ 2098 < val lo /\ val lo <= val hi /\ val hi < 2 ^ 2098)%Z.
Proof.
  intros H. destruct (bounded_bracket_fin lo hi H) as [Flo Fhi].
  destruct H as (Hle & Hlo & Hhi). destruct fin_bisect_bound as [FB FB'].
  apply (leb_val lo hi Flo Fhi) in Hle.
  apply (ltb_val _ _ FB' Flo) in Hlo. apply (ltb_val _ _ Fhi FB) in Hhi.
  rewrite val_opp_bisect_bound in Hlo. rewrite val_bisect_bound in Hhi.
  auto.
Qed.

Section BisectionBracket.

Variables (cash_flows : list float) (tol lo0 hi0 : float).
Hypothesis lo0_bound : (- 2 ^ 2098 < val lo0)%Z.
Hypothesis hi0_bound : (val hi0 < 2 ^ 2098)%Z.

Lemma midpoint_within (s : bisect_state) :
  bisect_inv lo0 hi0 s ->
  within lo0 hi0 (midpoint s)
  /\ (val (low s) <= val (midpoint s) <= val (high s))%Z.
Proof.
  intros ((Fl & Hl) & (Fh & Hh) & Hlh & _).
  destruct (midpoint_between (low s) (high s) Fl Fh Hlh) as [Fm Hm]; try lia.
  unfold midpoint, within. split; [split|]; [exact Fm | lia | exact Hm].
Qed.

Lemma bisect_body_inv (s : bisect_state) (r : float + bisect_state) :
  bisect_inv lo0 hi0 s ->
  bisect_body cash_flows tol s = Ok r ->
  match r with
  | inl m => within lo0 hi0 m
  | inr s' => bisect_inv lo0 hi0 s'
  end.
Proof.
  intros Hinv. destruct (midpoint_within s Hinv) as [Hw Hm].
  destruct Hinv as (Hlow & Hhigh & Hlh & _).
  unfold bisect_body. fold (midpoint s). intros H.
  apply bind_Ok in H as (v & _ & H).
  destruct (abs v <? tol); [injection H as <-; exact Hw|].
  destruct (npv_low s * v <? 0); injection H as <-; unfold bisect_inv;
    cbn [low high mid npv_low npv_high];
    (split; [|split; [|split]]); auto; try lia;
    intros m [= <-]; exact Hw.
Qed.

Lemma bisect_loop_inv :
  forall max_iter s r,
    bisect_inv lo0 hi0 s ->
    bisect_loop cash_flows tol max_iter s = Ok (Some r) ->
    within lo0 hi0 r.
Proof.
  induction max_iter as [|n IH]; intros s r Hinv H; cbn [bisect_loop] in H.
  - destruct Hinv as (_ & _ & _ & Hmid).
    destruct (mid s) as [m|]; [|discriminate]. injection H as <-. now apply Hmid.
  - apply bind_Ok in H as (b & Hb & H).
    pose proof (bisect_body_inv s b Hinv Hb) as Hb'.
    destruct b as [m|s']; [injection H as <-; exact Hb'|].
    exact (IH s' r Hb' H).
Qed.

End BisectionBracket.

Lemma irr_bisection_within (cash_flows : list float) (lo hi tol : float)
    (max_iter : nat) (r : float) :
  bracket_ok lo hi ->
  irr_bisection_interval cash_flows lo hi tol max_iter = Ok (Some r) ->
  within lo hi r.
Proof.
  intros (Flo & Fhi & Hlo & Hle & Hhi) H.
  unfold irr_bisection_interval in H.
  apply bind_Ok in H as (a & _ & H). apply bind_Ok in H as (b & _ & H).
  destruct (0 <? a * b); [discriminate|].
  apply (bisect_loop_inv cash_flows tol lo hi Hlo Hhi _ _ _) in H; [exact H|].
  unfold bisect_inv, within; cbn [low high mid].
  split; [split; [exact Flo | lia]|].
  split; [split; [exact Fhi | lia]|].
  split; [exact Hle | discriminate].
Qed.

Lemma within_leb (lo hi x : float) :
  fin lo -> fin hi -> within lo hi x -> (lo <=? x) = true /\ (x <=? hi) = true.
Proof.
  intros Flo Fhi [Fx Hx]. split; apply leb_val; auto; lia.
Qed.

(** ** The rate grid is ascending *)

Lemma leb_ltb_fin (a x b : float) :
  fin a -> fin b -> (a <=? x) = true -> (x <? b) = true -> fin x.
Proof.
  unfold fin. rewrite leb_spec, ltb_spec. unfold SFleb, SFltb.
  destruct (Prim2SF a) as [sa| | |sa ma ea]; try contradiction;
    destruct (Prim2SF b) as [sb| | |sb mb eb]; try contradiction;
    destruct (Prim2SF x) as [s|[|]| |s m e]; cbn [SFcompare SFfinite];
    intros _ _ H1 H2; try exact I; try discriminate;
    repeat match goal with
           | H : context [if ?s then _ else _] |- _ => destruct s
           end; discriminate.
Qed.

Lemma leb_infinity_false (x b : float) :
  fin b -> Prim2SF x = S754_infinity false -> (x <=? b) = false.
Proof.
  unfold fin. rewrite leb_spec. intros Fb ->. unfold SFleb.
  destruct (Prim2SF b); try contradiction; reflexivity.
Qed.

Lemma add_bracket_lower (r step : float) :
  fin r -> fin step -> (0 <= val step)%Z ->
  SFge_val (Prim2SF (r + step)) (val r).
Proof.
  intros Fr Fs Hs. rewrite add_spec.
  destruct (SFadd_bracket _ _ (Prim2SF_valid r) (Prim2SF_valid step) Fr Fs
              _ (Prim2SF_valid r) Fr) as [H _].
  apply H. unfold val in Hs. lia.
Qed.

Lemma SFge_val_trans (x : spec_float) (u v : Z) :
  (u <= v)%Z -> SFge_val x v -> SFge_val x u.
Proof. intros Huv [->|[F H]]; [now left | right; split; [exact F | lia]]. Qed.

Lemma rate_grid_spec (rate_max step : float) :
  fin rate_max -> fin step -> (0 <= val step)%Z ->
  forall fuel r rates v,
    rate_grid fuel r rate_max step = Some rates ->
    SFge_val (Prim2SF r) v ->
    Forall (fun x => fin x /\ (v <= val x <= val rate_max)%Z) rates
    /\ StronglySorted (fun x y => (val x <= val y)%Z) rates.
Proof.
  intros Fmax Fstep Hstep.
  induction fuel as [|fuel IH]; intros r rates v H Hge; [discriminate|].
  cbn [rate_grid] in H. destruct (r <=? rate_max) eqn:Eg.
  - destruct (rate_grid fuel (r + step) rate_max step) as [rest|] eqn:Er;
      [|discriminate].
    injection H as <-.
    destruct Hge as [Einf|[Fr Hv]].
    { rewrite (leb_infinity_false r rate_max Fmax Einf) in Eg. discriminate. }
    pose proof (proj1 (leb_val r rate_max Fr Fmax) Eg) as Hle.
    fold (val r) in Hv.
    destruct (IH (r + step) rest (val r) Er (add_bracket_lower r step Fr Fstep Hstep))
      as [Hall Hsort].
    split.
    + constructor; [split; [exact Fr | lia]|].
      eapply Forall_impl; [|exact Hall]. cbv beta.
      intros x [Fx Hx]. split; [exact Fx | lia].
    + constructor; [exact Hsort|].
      eapply Forall_impl; [|exact Hall]. cbv beta. intros x [_ Hx]. lia.
  - injection H as <-. split; constructor.
Qed.

(** The brackets come in ascending order, each one ascending. *)
Lemma sign_change_intervals_sorted (P : float -> Prop) :
  forall rates npv_values,
    Forall P rates ->
    StronglySorted (fun x y => (val x <= val y)%Z) rates ->
    Forall (fun p => P (fst p) /\ P (snd p) /\ (val (fst p) <= val (snd p))%Z)
      (sign_change_intervals rates npv_values)
    /\ StronglySorted (fun p1 p2 => (val (snd p1) <= val (fst p2))%Z)
         (sign_change_intervals rates npv_values)
    /\ Forall (fun p => forall r0, hd_error rates = Some r0 ->
                                  (val r0 <= val (fst p))%Z)
         (sign_change_intervals rates npv_values).
Proof.
  induction rates as [|r0 rates IH]; intros vals HP Hs;
    [repeat split; constructor|].
  destruct rates as [|r1 rates]; [repeat split; constructor|].
  destruct vals as [|v0 [|v1 vals]]; try (repeat split; constructor).
  rewrite sign_change_intervals_cons.
  inversion HP as [|? ? P0 HP']; subst. inversion Hs as [|? ? Hs' H0]; subst.
  inversion HP' as [|? ? P1 _]; subst. inversion H0 as [|? ? H01 _]; subst.
  destruct (IH (v1 :: vals) HP' Hs') as (Hall & Hsort & Hhd).
  assert (Hhd0 : Forall (fun p => (val r0 <= val (fst p))%Z)
                   (sign_change_intervals (r1 :: rates) (v1 :: vals))).
  { eapply Forall_impl; [|exact Hhd]. cbv beta. intros p Hp.
    specialize (Hp r1 eq_refl). lia. }
  assert (Hhd1 : Forall (fun p => (val r1 <= val (fst p))%Z)
                   (sign_change_intervals (r1 :: rates) (v1 :: vals))).
  { eapply Forall_impl; [|exact Hhd]. cbv beta. intros p Hp.
    exact (Hp r1 eq_refl). }
  destruct (v0 * v1 <? 0).
  - split; [|split].
    + constructor; [cbn [fst snd]; auto | exact Hall].
    + constructor; [exact Hsort | exact Hhd1].
    + constructor.
      * cbn [fst hd_error]. intros r [= <-]. lia.
      * eapply Forall_impl; [|exact Hhd0]. cbv beta.
        intros p Hp r [= <-]. exact Hp.
  - split; [exact Hall|]. split; [exact Hsort|].
    eapply Forall_impl; [|exact Hhd0]. cbv beta.
    intros p Hp r [= <-]. exact Hp.
Qed.

(** One root per bracket, inside it: the roots ascend with the brackets. *)
Lemma collect_irrs_sorted (cash_flows : list float) :
  forall intervals irrs,
    Forall (fun p => bracket_ok (fst p) (snd p)) intervals ->
    StronglySorted (fun p1 p2 => (val (snd p1) <= val (fst p2))%Z) intervals ->
    collect_irrs cash_flows intervals = Ok irrs ->
    Forall (fun r => exists p, In p intervals /\ within (fst p) (snd p) r) irrs
    /\ StronglySorted (fun x y => (val x <= val y)%Z) irrs.
Proof.
  induction intervals as [|[lo hi] rest IH]; intros irrs Hok Hs H;
    cbn [collect_irrs] in H.
  - injection H as <-. split; constructor.
  - apply bind_Ok in H as (irr & Hirr & H).
    apply bind_Ok in H as (irrs' & Hrest & H). injection H as <-.
    inversion Hok as [|? ? Hok0 Hok']; subst.
    inversion Hs as [|? ? Hs' Hord]; subst. cbn [fst snd] in *.
    destruct (IH irrs' Hok' Hs' Hrest) as [Hin Hsorted].
    assert (Hin' : Forall (fun r => exists p, In p ((lo, hi) :: rest)
                                             /\ within (fst p) (snd p) r) irrs').
    { eapply Forall_impl; [|exact Hin]. cbv beta.
      intros r (p & Hp & Hw). exists p. split; [now right | exact Hw]. }
    destruct irr as [r|]; [|split; assumption].
    pose proof (irr_bisection_within _ _ _ _ _ _ Hok0 Hirr) as Hw.
    split.
    + constructor; [|exact Hin'].
      exists (lo, hi). split; [now left | exact Hw].
    + constructor; [exact Hsorted|].
      rewrite Forall_forall in Hin, Hord |- *. intros r' Hr'.
      destruct (Hin r' Hr') as (p & Hp & (_ & Hw')).
      specialize (Hord p Hp). destruct Hw as (_ & Hw). lia.
Qed.

(** ** Roots of the scan: inside the range, in ascending order *)

Lemma fin_zero : fin 0.
Proof. exact I. Qed.

Lemma val_zero : val 0 = 0%Z.
Proof. reflexivity. Qed.

Lemma find_all_irrs_within_sorted (fuel : nat) (cash_flows : list float)
    (rate_min rate_max step : float) (irrs rates npv_values : list float) :
  bounded_bracket rate_min rate_max ->
  (0 <=? step) = true -> (step <? bisect_bound) = true ->
  find_all_irrs fuel cash_flows rate_min rate_max step = Ok (irrs, rates, npv_values) ->
  Forall (within rate_min rate_max) irrs
  /\ StronglySorted (fun x y => (val x <= val y)%Z) irrs.
Proof.
  intros Hb Hs0 Hs1 H.
  destruct (bounded_bracket_val _ _ Hb) as (Fmin & Fmax & Hlo & Hle & Hhi).
  destruct fin_bisect_bound as [FB _].
  pose proof (leb_ltb_fin 0 step bisect_bound fin_zero FB Hs0 Hs1) as Fstep.
  pose proof (proj1 (leb_val 0 step fin_zero Fstep) Hs0) as Hstep.
  rewrite val_zero in Hstep.
  unfold find_all_irrs in H.
  destruct (rate_grid fuel rate_min rate_max step) as [rs|] eqn:Eg; [|discriminate].
  apply bind_Ok in H as (vals & _ & H).
  apply bind_Ok in H as (irrs' & Hirrs & H). injection H as <- <- <-.
  destruct (rate_grid_spec rate_max step Fmax Fstep Hstep fuel rate_min rs
              (val rate_min) Eg)
    as [Hall Hsort].
  { right. split; [exact Fmin | unfold val; lia]. }
  destruct (sign_change_intervals_sorted _ rs vals Hall Hsort)
    as (Hint & Hintsort & _).
  destruct (collect_irrs_sorted cash_flows (sign_change_intervals rs vals) irrs')
    as [Hin Hsorted];
    [|exact Hintsort|exact Hirrs|].
  - eapply Forall_impl; [|exact Hint]. cbv beta.
    intros p ((F1 & H1) & (F2 & H2) & H12). unfold bracket_ok.
    split; [exact F1|]. split; [exact F2|]. lia.
  - split; [|exact Hsorted].
    rewrite Forall_forall in Hin, Hint |- *. intros r Hr.
    destruct (Hin r Hr) as (p & Hp & (Fr & Hw)).
    destruct (Hint p Hp) as ((_ & H1) & (_ & H2) & _).
    split; [exact Fr | lia].
Qed.

Lemma StronglySorted_val_leb (l : list float) :
  Forall fin l ->
  StronglySorted (fun x y => (val x <= val y)%Z) l ->
  StronglySorted (fun x y => (x <=? y) = true) l.
Proof.
  induction l as [|x l IH]; intros HF HS; [constructor|].
  inversion HF as [|? ? Fx HF']; subst. inversion HS as [|? ? HS' Hx]; subst.
  constructor; [now apply IH|].
  rewrite Forall_forall in HF', Hx |- *. intros y Hy.
  apply leb_val; auto.
Qed.

(** C6. Whenever the default call returns, its root list is in ascending
    order: every root is at most every root after it. *)
Theorem find_all_irrs_roots_ascending (fuel : nat) (cash_flows : list float)
    (irrs rates npv_values : list float) :
  find_all_irrs fuel cash_flows default_rate_min default_rate_max default_step
  = Ok (irrs, rates, npv_values) ->
  StronglySorted (fun x y => (x <=? y) = true) irrs.
Proof.
  intros H.
  assert (Hb : bounded_bracket default_rate_min default_rate_max).
  { unfold bounded_bracket.
    split; [vm_compute; reflexivity|]. split; vm_compute; reflexivity. }
  assert (Hs0 : (0 <=? default_step) = true) by (vm_compute; reflexivity).
  assert (Hs1 : (default_step <? bisect_bound) = true) by (vm_compute; reflexivity).
  destruct (find_all_irrs_within_sorted fuel cash_flows default_rate_min
              default_rate_max default_step irrs rates npv_values Hb Hs0 Hs1 H)
    as [Hin Hs].
  apply StronglySorted_val_leb; [|exact Hs].
  eapply Forall_impl; [|exact Hin]. cbv beta. now intros r [Fr _].
Qed.

Lemma find_all_irrs_roots_ascending_witness :
  StronglySorted (fun x y => (x <=? y) = true)
    [0.10050000000000096; 0.25050000000000106].
Proof.
  eapply (find_all_irrs_roots_ascending 11000 [-100; 235.1; -137.617525]
            [0.10050000000000096; 0.25050000000000106] _ _).
  vm_compute. reflexivity.
Defined.

(** C10 (as amended). For a bracket [rate_min <= rate_max] strictly between
    [-2^1023] and [2^1023] (so that no midpoint sum overflows), a numeric
    result of the bisection lies in the bracket, and so does every root that
    a scan of the bracket with a finite step [>= 0] returns. *)
Theorem irr_results_within_range (cash_flows : list float)
    (rate_min rate_max : float) :
  bounded_bracket rate_min rate_max ->
  (forall tol max_iter r,
     irr_bisection_interval cash_flows rate_min rate_max tol max_iter = Ok (Some r) ->
     (rate_min <=? r) = true /\ (r <=? rate_max) = true)
  /\ (forall fuel step irrs rates npv_values,
        (0 <=? step) = true -> (step <? bisect_bound) = true ->
        find_all_irrs fuel cash_flows rate_min rate_max step
        = Ok (irrs, rates, npv_values) ->
        Forall (fun r => (rate_min <=? r) = true /\ (r <=? rate_max) = true) irrs).
Proof.
  intros Hb. pose proof (bounded_bracket_val _ _ Hb) as Hv.
  destruct Hv as (Fmin & Fmax & _). split.
  - intros tol max_iter r H.
    apply (within_leb _ _ _ Fmin Fmax).
    exact (irr_bisection_within cash_flows rate_min rate_max tol max_iter r
             (bounded_bracket_val _ _ Hb) H).
  - intros fuel step irrs rates vals Hs0 Hs1 H.
    destruct (find_all_irrs_within_sorted fuel cash_flows rate_min rate_max step
                irrs rates vals Hb Hs0 Hs1 H) as [Hin _].
    eapply Forall_impl; [|exact Hin]. cbv beta.
    intros r Hr. exact (within_leb _ _ _ Fmin Fmax Hr).
Qed.

Lemma irr_results_within_range_witness :
  ((0 <=? 0.13066238164901733) = true /\ (0.13066238164901733 <=? 0.25) = true)
  /\ Forall (fun r => (0 <=? r) = true /\ (r <=? 0.25) = true)
       [0.1306623935699463].
Proof.
  assert (Hb : bounded_bracket 0 0.25).
  { unfold bounded_bracket.
    split; [vm_compute; reflexivity|]. split; vm_compute; reflexivity. }
  destruct (irr_results_within_range [-100; 60; 60] 0 0.25 Hb) as [H1 H2].
  split.
  - apply (H1 default_tol default_max_iter 0.13066238164901733).
    vm_compute. reflexivity.
  - apply (H2 10%nat 0.1 [0.1306623935699463] [0; 0.1; 0.2]
             [20; 4.1322314049586666; -8.3333333333333286]);
      vm_compute; reflexivity.
Defined.

(** C10 (as stated) fails: for [low = 1e308 <= high = 1.5e308] the sum
    [low + high] overflows, the midpoint is [inf], its NPV for [[0.0]] is
    [0.0], and [inf], outside the bracket, is returned. *)
Lemma irr_bisection_result_outside_bracket :
  (1e308 <=? 1.5e308) = true
  /\ irr_bisection_interval [0] 1e308 1.5e308 default_tol default_max_iter
     = Ok (Some infinity)
  /\ (infinity <=? 1.5e308) = false.
Proof.
  split; [vm_compute; reflexivity|]. split; vm_compute; reflexivity.
Qed.

(** ** Further properties of [npv] *)

Lemma eqb_zero_cases (v : float) : (v =? 0) = true -> v = 0 \/ v = - 0.
Proof.
  intros H. rewrite eqb_spec, Prim2SF_zero in H.
  rewrite <- (SF2Prim_Prim2SF v).
  destruct (Prim2SF v) as [[|]|[|]| |[|] m e];
    try discriminate H; [right | left]; reflexivity.
Qed.

Lemma pow_zero_one (v : float) :
  (v =? 0) = true -> exists d, PyFloat.pow v 1 = Ok d /\ (d =? 0) = true.
Proof.
  intros H. destruct (eqb_zero_cases v H) as [-> | ->].
  - exists 0. split; reflexivity.
  - exists (- 0). split; reflexivity.
Qed.

(** X1. At [rate = -1], which the contract leaves unguarded, [npv] raises
    ZeroDivisionError as soon as there are two cash flows, whatever their
    values: [(1 + rate) ** 1] is zero.  With fewer cash flows it returns. *)
Theorem npv_minus_one_raises (cash_flows : list float) :
  ((2 <= length cash_flows)%nat -> npv (-1) cash_flows = Raise ZeroDivisionError)
  /\ ((length cash_flows < 2)%nat -> exists v, npv (-1) cash_flows = Ok v).
Proof.
  split; intros Hlen.
  - destruct cash_flows as [|c0 [|c1 rest]]; simpl in Hlen; try lia.
    unfold npv.
    change (seq 0 (length (c0 :: c1 :: rest)))
      with (0 :: 1 :: seq 2 (length rest))%nat.
    cbn [foldM]. unfold npv_step at 1. cbn [PyFloat.pow bind nth].
    unfold PyFloat.truediv. change (1 =? 0) with false. cbn [bind].
    rewrite (npv_step_zero_power (-1) (c0 :: c1 :: rest) (0 + c0 / 1) 1);
      [reflexivity|].
    vm_compute. reflexivity.
  - destruct cash_flows as [|c0 [|c1 rest]]; simpl in Hlen; try lia.
    + exists 0. reflexivity.
    + exists (0 + c0 / 1). reflexivity.
Qed.

Lemma npv_minus_one_raises_witness :
  npv (-1) [-100; 121] = Raise ZeroDivisionError.
Proof.
  apply (proj1 (npv_minus_one_raises [-100; 121])).
  simpl. lia.
Defined.

(** ** Further properties of the bisection *)

Lemma bisect_body_outcome (cash_flows : list float) (tol : float)
    (s : bisect_state) :
  match bisect_body cash_flows tol s with
  | Ok (inl m) =>
      m = midpoint s
      /\ exists v, npv m cash_flows = Ok v /\ (abs v <? tol) = true
  | Ok (inr s') =>
      mid s' = Some (midpoint s)
      /\ exists v, npv (midpoint s) cash_flows = Ok v /\ (abs v <? tol) = false
  | Raise e => e = ZeroDivisionError \/ e = OverflowError
  | Diverge => False
  end.
Proof.
  unfold bisect_body. fold (midpoint s).
  pose proof (npv_outcome (midpoint s) cash_flows) as Ho.
  destruct (npv (midpoint s) cash_flows) as [v|e|] eqn:En; cbn [bind].
  - destruct (abs v <? tol) eqn:Et.
    + split; [reflexivity|]. exists v. split; [exact En | exact Et].
    + destruct (npv_low s * v <? 0); cbn [mid];
        (split; [reflexivity|]; exists v; split; [reflexivity | exact Et]).
  - destruct e; simpl in Ho; try contradiction; [left | right]; reflexivity.
  - exact Ho.
Qed.

(** Once a midpoint has been computed the loop ends with a result or an
    arithmetic exception. *)
Lemma bisect_loop_bound_mid (cash_flows : list float) (tol : float) :
  forall n s m, mid s = Some m ->
    arithmetic_outcome (bisect_loop cash_flows tol n s).
Proof.
  induction n as [|n IH]; intros s m Hm; cbn [bisect_loop].
  - rewrite Hm. exact I.
  - pose proof (bisect_body_outcome cash_flows tol s) as Hb.
    destruct (bisect_body cash_flows tol s) as [[m'|s']|e|]; cbn [bind].
    + exact I.
    + destruct Hb as [Hmid _]. exact (IH s' _ Hmid).
    + destruct Hb as [-> | ->]; exact I.
    + contradiction.
Qed.

(** With [max_iter] a natural number, [return mid] is reached with [mid]
    unbound only for [max_iter = 0]. *)
Lemma irr_bisection_unbound_mid_nat (cash_flows : list float)
    (lo hi tol : float) (max_iter : nat) :
  irr_bisection_interval cash_flows lo hi tol max_iter = Raise UnboundLocalError
  <-> max_iter = O
      /\ exists a b, npv lo cash_flows = Ok a /\ npv hi cash_flows = Ok b
                     /\ (0 <? a * b) = false.
Proof.
  unfold irr_bisection_interval. split.
  - intros H.
    pose proof (npv_outcome lo cash_flows) as Hlo.
    destruct (npv lo cash_flows) as [a|e|]; cbn [bind] in H;
      [|injection H as ->; contradiction | discriminate].
    pose proof (npv_outcome hi cash_flows) as Hhi.
    destruct (npv hi cash_flows) as [b|e|]; cbn [bind] in H;
      [|injection H as ->; contradiction | discriminate].
    destruct (0 <? a * b) eqn:Eg; [discriminate|].
    split; [|exists a, b; split; [reflexivity|]; split; [reflexivity | exact Eg]].
    destruct max_iter as [|n]; [reflexivity|]. exfalso.
    cbn [bisect_loop] in H.
    pose proof (bisect_body_outcome cash_flows tol
                  (mk_bisect_state lo hi a b None)) as Hb.
    destruct (bisect_body cash_flows tol (mk_bisect_state lo hi a b None))
      as [[m|s']|e|]; cbn [bind] in H.
    + discriminate.
    + destruct Hb as [Hmid _].
      pose proof (bisect_loop_bound_mid cash_flows tol n s' _ Hmid) as Ho.
      rewrite H in Ho. exact Ho.
    + injection H as ->. destruct Hb; discriminate.
    + contradiction.
  - intros (-> & a & b & Ha & Hb & Hg). rewrite Ha, Hb. cbn [bind].
    rewrite Hg. reflexivity.
Qed.

(** X2. [irr_bisection_interval] raises UnboundLocalError exactly when it
    is called with [max_iter <= 0] on a bracket that passes the product
    test: [range(max_iter)] is empty and [return mid] is reached with
    [mid] never assigned.  With [max_iter >= 1] this cannot happen. *)
Theorem irr_bisection_unbound_mid_iff (cash_flows : list float)
    (lo hi tol : float) (max_iter : Z) :
  irr_bisection_interval_int cash_flows lo hi tol max_iter
  = Raise UnboundLocalError
  <-> (max_iter <= 0)%Z
      /\ exists a b, npv lo cash_flows = Ok a /\ npv hi cash_flows = Ok b
                     /\ (0 <? a * b) = false.
Proof.
  unfold irr_bisection_interval_int.
  rewrite irr_bisection_unbound_mid_nat.
  assert (H0 : Z.to_nat max_iter = O <-> (max_iter <= 0)%Z) by lia.
  rewrite H0. reflexivity.
Qed.

(** X3. A rate returned by the bisection is one whose NPV has been
    evaluated without error: either it meets the tolerance, or all
    [max_iter] passes ran and it is the midpoint of the last one. *)
Theorem irr_bisection_result_checked (cash_flows : list float)
    (lo hi tol : float) (max_iter : nat) (r : float) :
  irr_bisection_interval cash_flows lo hi tol max_iter = Ok (Some r) ->
  exists a b v,
    npv lo cash_flows = Ok a /\ npv hi cash_flows = Ok b
    /\ npv r cash_flows = Ok v
    /\ ((abs v <? tol) = true
        \/ ((abs v <? tol) = false
            /\ exists s,
                 bisect_state_at cash_flows tol max_iter
                   (mk_bisect_state lo hi a b None) = Ok (Some s)
                 /\ mid s = Some r)).
Proof.
  unfold irr_bisection_interval. intros H.
  destruct (npv lo cash_flows) as [a|e|]; cbn [bind] in H; try discriminate.
  destruct (npv hi cash_flows) as [b|e|]; cbn [bind] in H; try discriminate.
  destruct (0 <? a * b); [discriminate|].
  exists a, b.
  assert (Hgen : forall n s,
            (forall m, mid s = Some m ->
               exists v, npv m cash_flows = Ok v /\ (abs v <? tol) = false) ->
            bisect_loop cash_flows tol n s = Ok (Some r) ->
            exists v, npv r cash_flows = Ok v
              /\ ((abs v <? tol) = true
                  \/ ((abs v <? tol) = false
                      /\ exists s', bisect_state_at cash_flows tol n s = Ok (Some s')
                                    /\ mid s' = Some r))).
  { induction n as [|n IH]; intros s Hs Hl; cbn [bisect_loop] in Hl.
    - destruct (mid s) as [m|] eqn:Em; [|discriminate].
      injection Hl as ->. destruct (Hs r eq_refl) as (v & Hv & Ht).
      exists v. split; [exact Hv|]. right. split; [exact Ht|].
      exists s. split; [reflexivity | exact Em].
    - cbn [bisect_state_at].
      pose proof (bisect_body_outcome cash_flows tol s) as Hb.
      destruct (bisect_body cash_flows tol s) as [[m|s']|e|];
        cbn [bind] in Hl |- *; try discriminate.
      + injection Hl as ->. destruct Hb as (_ & v & Hv & Ht).
        exists v. split; [exact Hv|]. left. exact Ht.
      + destruct Hb as (Hmid & v & Hv & Ht).
        apply (IH s'); [|exact Hl].
        intros m Hm. rewrite Hmid in Hm. injection Hm as <-.
        exists v. split; [exact Hv | exact Ht]. }
  destruct (Hgen max_iter (mk_bisect_state lo hi a b None)) as (v & Hv & Hc);
    [intros m Hm; discriminate | exact H |].
  exists v. split; [reflexivity|]. split; [reflexivity|]. split; [exact Hv | exact Hc].
Qed.

Lemma irr_bisection_result_checked_witness :
  exists a b v,
    npv 0 [-100; 60; 60] = Ok a /\ npv 0.25 [-100; 60; 60] = Ok b
    /\ npv 0.13066238164901733 [-100; 60; 60] = Ok v
    /\ ((abs v <? default_tol) = true
        \/ ((abs v <? default_tol) = false
            /\ exists s,
                 bisect_state_at [-100; 60; 60] default_tol default_max_iter
                   (mk_bisect_state 0 0.25 a b None) = Ok (Some s)
                 /\ mid s = Some 0.13066238164901733)).
Proof.
  apply (irr_bisection_result_checked [-100; 60; 60] 0 0.25
           default_tol default_max_iter 0.13066238164901733).
  vm_compute. reflexivity.
Defined.

(** ** Further properties of the grid scan *)

(** X4. The grid is empty exactly when [rate_min <= rate_max] fails (an
    inverted range, or a NaN bound); the call then returns three empty
    lists without evaluating any NPV, so it cannot raise. *)
Theorem find_all_irrs_empty_grid (fuel : nat) (cash_flows : list float)
    (rate_min rate_max step : float) :
  (1 <= fuel)%nat ->
  ((rate_min <=? rate_max) = false ->
   find_all_irrs fuel cash_flows rate_min rate_max step = Ok ([], [], []))
  /\ (forall irrs npv_values,
        find_all_irrs fuel cash_flows rate_min rate_max step
        = Ok (irrs, [], npv_values) ->
        (rate_min <=? rate_max) = false /\ irrs = [] /\ npv_values = []).
Proof.
  intros Hf. destruct fuel as [|fuel]; [lia|]. unfold find_all_irrs.
  cbn [rate_grid]. destruct (rate_min <=? rate_max).
  - split; [discriminate|]. intros irrs vals H.
    destruct (rate_grid fuel (rate_min + step) rate_max step); [|discriminate].
    cbn [mapM] in H.
    destruct (npv rate_min cash_flows); cbn [bind] in H; try discriminate.
    destruct (mapM (fun r => npv r cash_flows) l); cbn [bind] in H;
      try discriminate.
    destruct (collect_irrs cash_flows _); cbn [bind] in H; discriminate.
  - split; [reflexivity|]. intros irrs vals H. cbn in H.
    injection H as <- <-. repeat split; reflexivity.
Qed.

Lemma find_all_irrs_empty_grid_witness :
  find_all_irrs 1 [-100; 121] 1 0 0.001 = Ok ([], [], []).
Proof.
  apply (proj1 (find_all_irrs_empty_grid 1 [-100; 121] 1 0 0.001 (le_n 1))).
  reflexivity.
Defined.

Lemma fin_cases (x : float) :
  fin x \/ Prim2SF x = S754_nan \/ exists s, Prim2SF x = S754_infinity s.
Proof.
  unfold fin. destruct (Prim2SF x) as [s|s| |s m e].
  - left; exact I.
  - right; right; exists s; reflexivity.
  - right; left; reflexivity.
  - left; exact I.
Qed.

Lemma leb_valid_r (x y : float) : (x <=? y) = true -> Prim2SF y <> S754_nan.
Proof.
  rewrite leb_spec. intros H E. rewrite E in H.
  destruct (Prim2SF x) as [s|s| |s m e]; discriminate.
Qed.

(** Adding a finite step that is not positive cannot carry a rate above
    a bound it was under. *)
Lemma leb_add_nonpos (r step rate_max : float) :
  (r <=? rate_max) = true ->
  (step <=? 0) = true -> (neg_infinity <? step) = true ->
  (r + step <=? rate_max) = true.
Proof.
  intros Hr Hs Hs'.
  assert (Fs : fin step).
  { unfold fin. rewrite leb_spec in Hs. rewrite ltb_spec in Hs'.
    destruct (Prim2SF step) as [s|[|]| |s m e]; try exact I; discriminate. }
  assert (Vs : (val step <= 0)%Z).
  { rewrite <- val_zero. apply leb_val; [exact Fs | exact fin_zero | exact Hs]. }
  pose proof (leb_not_nan_l _ _ Hr) as Nr.
  pose proof (leb_valid_r _ _ Hr) as Nm.
  destruct (fin_cases r) as [Fr|[Er|[s Er]]]; [|contradiction|].
  - pose proof (SFadd_bracket (Prim2SF r) (Prim2SF step)
                  (Prim2SF_valid r) (Prim2SF_valid step) Fr Fs
                  (Prim2SF r) (Prim2SF_valid r) Fr) as [_ Hup].
    fold (val r) (val step) in Hup. specialize (Hup ltac:(lia)).
    rewrite <- add_spec in Hup.
    destruct Hup as [Einf|[Fa Va]].
    + rewrite leb_spec, Einf. rewrite leb_spec in Hr.
      destruct (Prim2SF rate_max) as [sm|[|]| |sm mm em];
        try reflexivity; contradiction.
    + fold (val (r + step)) in Va. fold (fin (r + step)) in Fa.
      destruct (fin_cases rate_max) as [Fm|[Em|[sm Em]]]; [|contradiction|].
      * apply leb_val; [exact Fa | exact Fm|].
        apply (leb_val r rate_max Fr Fm) in Hr. lia.
      * rewrite leb_spec, Em. rewrite leb_spec, Em in Hr.
        unfold fin in Fa, Fr.
        destruct (Prim2SF (r + step)) as [sa|sa| |sa ma ea]; try contradiction;
          destruct (Prim2SF r) as [s|s| |s m e]; try contradiction;
          destruct sm; try discriminate; reflexivity.
  - assert (Ea : Prim2SF (r + step) = Prim2SF r).
    { rewrite add_spec, Er. unfold fin in Fs.
      destruct (Prim2SF step) as [ss|ss| |ss ms es]; try contradiction;
        reflexivity. }
    rewrite leb_spec, Ea, <- leb_spec. exact Hr.
Qed.

Lemma rate_grid_stuck (rate_max step : float) (P : float -> Prop) :
  (forall r, P r -> (r <=? rate_max) = true /\ P (r + step)) ->
  forall fuel r, P r -> rate_grid fuel r rate_max step = None.
Proof.
  intros HP. induction fuel as [|fuel IH]; intros r Hr; cbn [rate_grid].
  - reflexivity.
  - destruct (HP r Hr) as [-> Hnext]. now rewrite (IH _ Hnext).
Qed.

(** X5. With a step that is zero or negative, or so small that
    [rate_min + step == rate_min], the grid loop of [find_all_irrs] over a
    non-empty range never ends: no bound on the number of passes lets the
    call return. *)
Theorem find_all_irrs_never_returns (cash_flows : list float)
    (rate_min rate_max step : float) :
  (rate_min <=? rate_max) = true ->
  ((step <=? 0) = true /\ (neg_infinity <? step) = true)
  \/ rate_min + step = rate_min ->
  forall fuel, find_all_irrs fuel cash_flows rate_min rate_max step = Diverge.
Proof.
  intros Hr Hs fuel. unfold find_all_irrs.
  destruct Hs as [[Hs Hs']|Hs].
  - rewrite (rate_grid_stuck rate_max step (fun r => (r <=? rate_max) = true));
      [reflexivity | | exact Hr].
    intros r H. split; [exact H|]. now apply leb_add_nonpos.
  - rewrite (rate_grid_stuck rate_max step (fun r => r = rate_min));
      [reflexivity | | reflexivity].
    intros r ->. split; [exact Hr | exact Hs].
Qed.

Lemma find_all_irrs_never_returns_witness :
  find_all_irrs 1000000 [-100; 121] 0 1 (-0.001) = Diverge
  /\ find_all_irrs 1000000 [-100; 121] 1e17 1e18 0.001 = Diverge.
Proof.
  split.
  - apply (find_all_irrs_never_returns [-100; 121] 0 1 (-0.001)).
    + reflexivity.
    + left. split; reflexivity.
  - apply (find_all_irrs_never_returns [-100; 121] 1e17 1e18 0.001).
    + reflexivity.
    + right. reflexivity.
Defined.

Lemma find_all_irrs_Ok (fuel : nat) (cash_flows : list float)
    (rate_min rate_max step : float) (irrs rates npv_values : list float) :
  find_all_irrs fuel cash_flows rate_min rate_max step = Ok (irrs, rates, npv_values) ->
  rate_grid fuel rate_min rate_max step = Some rates
  /\ mapM (fun r => npv r cash_flows) rates = Ok npv_values
  /\ collect_irrs cash_flows (sign_change_intervals rates npv_values) = Ok irrs.
Proof.
  unfold find_all_irrs. intros H.
  destruct (rate_grid fuel rate_min rate_max step) as [rs|]; [|discriminate].
  destruct (mapM (fun r => npv r cash_flows) rs) as [vs|e|] eqn:Em;
    cbn [bind] in H; try discriminate.
  destruct (collect_irrs cash_flows (sign_change_intervals rs vs)) as [xs|e|] eqn:Ec;
    cbn [bind] in H; try discriminate.
  injection H as <- <- <-. rewrite Em. repeat split. exact Ec.
Qed.

(** A float is a NaN or a zero, or it is strictly negative or strictly
    positive. *)
Lemma float_sign_cases (x : float) :
  (sign_is true x /\ sign_is false x)
  \/ ((x <? 0) = true /\ sign_is true x)
  \/ ((0 <? x) = true /\ sign_is false x).
Proof.
  unfold sign_is. rewrite !ltb_spec, Prim2SF_zero.
  destruct (Prim2SF x) as [s|[|]| |[|] m e]; cbn;
    first [left; split; exact I
          |right; left; split; reflexivity
          |right; right; split; reflexivity].
Qed.

Lemma mul_neg_opposite (a b : float) :
  (a * b <? 0) = true ->
  ((a <? 0) = true /\ (0 <? b) = true) \/ ((0 <? a) = true /\ (b <? 0) = true).
Proof.
  intros H.
  assert (Hno : forall s, sign_is s a -> sign_is s b -> False).
  { intros s Ha Hb. pose proof (mul_sign s s a b Ha Hb) as Hm.
    rewrite xorb_nilpotent in Hm.
    rewrite (sign_false_not_ltb_zero _ Hm) in H. discriminate. }
  destruct (float_sign_cases a) as [[Ha1 Ha0]|[[Ha Sa]|[Ha Sa]]];
    destruct (float_sign_cases b) as [[Hb1 Hb0]|[[Hb Sb]|[Hb Sb]]];
    try solve [exfalso; apply (Hno true); assumption
              |exfalso; apply (Hno false); assumption].
  - left. split; assumption.
  - right. split; assumption.
Qed.

Lemma sign_change_intervals_adjacent :
  forall rates npv_values lo hi,
    In (lo, hi) (sign_change_intervals rates npv_values) ->
    exists before after, rates = before ++ lo :: hi :: after.
Proof.
  induction rates as [|r0 rates IH]; intros vals lo hi Hin; [contradiction|].
  destruct rates as [|r1 rates]; [destruct vals; contradiction|].
  destruct vals as [|v0 [|v1 vals]]; try contradiction.
  rewrite sign_change_intervals_cons in Hin.
  assert (Hrec : In (lo, hi) (sign_change_intervals (r1 :: rates) (v1 :: vals)) ->
                 exists before after, r0 :: r1 :: rates = before ++ lo :: hi :: after).
  { intros Hin'. destruct (IH _ _ _ Hin') as (before & after & E).
    exists (r0 :: before), after. rewrite E. reflexivity. }
  destruct (v0 * v1 <? 0); [|exact (Hrec Hin)].
  destruct Hin as [E|Hin]; [|exact (Hrec Hin)].
  injection E as <- <-. exists [], rates. reflexivity.
Qed.

Lemma collect_irrs_origin (cash_flows : list float) :
  forall intervals irrs,
    collect_irrs cash_flows intervals = Ok irrs ->
    Forall (fun r => exists lo hi,
              In (lo, hi) intervals
              /\ irr_bisection_interval cash_flows lo hi default_tol default_max_iter
                 = Ok (Some r)) irrs.
Proof.
  induction intervals as [|[lo hi] rest IH]; intros irrs H; cbn [collect_irrs] in H.
  - injection H as <-. constructor.
  - destruct (irr_bisection_interval cash_flows lo hi default_tol default_max_iter)
      as [irr|e|] eqn:Ei; cbn [bind] in H; try discriminate.
    destruct (collect_irrs cash_flows rest) as [irrs'|e|]; cbn [bind] in H;
      try discriminate.
    injection H as <-.
    assert (Hrest : Forall (fun r => exists lo' hi',
                      In (lo', hi') ((lo, hi) :: rest)
                      /\ irr_bisection_interval cash_flows lo' hi'
                           default_tol default_max_iter = Ok (Some r)) irrs').
    { eapply Forall_impl; [|exact (IH irrs' eq_refl)].
      intros r (lo' & hi' & Hin & Hr). exists lo', hi'.
      split; [right; exact Hin | exact Hr]. }
    destruct irr as [r|]; [|exact Hrest].
    constructor; [|exact Hrest].
    exists lo, hi. split; [left; reflexivity | exact Ei].
Qed.

(** X6. Every root that [find_all_irrs] returns was found by the bisection
    on two adjacent grid rates whose NPVs are strictly of opposite sign:
    one below zero, the other above.  A grid rate whose NPV is exactly
    [0.0] is never an endpoint of such a pair. *)
Theorem find_all_irrs_roots_from_strict_sign_change
    (fuel : nat) (cash_flows : list float) (rate_min rate_max step : float)
    (irrs rates npv_values : list float) :
  find_all_irrs fuel cash_flows rate_min rate_max step = Ok (irrs, rates, npv_values) ->
  Forall (fun r =>
            exists lo hi a b before after,
              rates = before ++ lo :: hi :: after
              /\ irr_bisection_interval cash_flows lo hi default_tol default_max_iter
                 = Ok (Some r)
              /\ npv lo cash_flows = Ok a /\ npv hi cash_flows = Ok b
              /\ (((a <? 0) = true /\ (0 <? b) = true)
                  \/ ((0 <? a) = true /\ (b <? 0) = true))) irrs.
Proof.
  intros H. destruct (find_all_irrs_Ok _ _ _ _ _ _ _ _ H) as (_ & Hm & Hc).
  eapply Forall_impl; [|exact (collect_irrs_origin _ _ _ Hc)].
  intros r (lo & hi & Hin & Hr).
  destruct (sign_change_intervals_npv (fun r => npv r cash_flows)
              rates npv_values lo hi Hm Hin) as (a & b & Ha & Hb & Hp).
  destruct (sign_change_intervals_adjacent _ _ _ _ Hin) as (before & after & E).
  exists lo, hi, a, b, before, after.
  split; [exact E|]. split; [exact Hr|]. split; [exact Ha|]. split; [exact Hb|].
  exact (mul_neg_opposite a b Hp).
Qed.

Lemma find_all_irrs_roots_from_strict_sign_change_witness :
  Forall (fun r =>
            exists lo hi a b before after,
              [0; 0.1; 0.2] = before ++ lo :: hi :: after
              /\ irr_bisection_interval [-100; 60; 60] lo hi default_tol default_max_iter
                 = Ok (Some r)
              /\ npv lo [-100; 60; 60] = Ok a /\ npv hi [-100; 60; 60] = Ok b
              /\ (((a <? 0) = true /\ (0 <? b) = true)
                  \/ ((0 <? a) = true /\ (b <? 0) = true)))
    [0.1306623935699463].
Proof.
  apply (find_all_irrs_roots_from_strict_sign_change 10 [-100; 60; 60] 0 0.25 0.1
           [0.1306623935699463] [0; 0.1; 0.2]
           [20; 4.1322314049586666; -8.3333333333333286]).
  vm_compute. reflexivity.
Defined.

(** ** The NPV profile of the script *)

Lemma mapM_filter {A B : Type} (f : A -> result B) (p : A -> bool) :
  forall (l : list A) (ys : list B),
    mapM f l = Ok ys ->
    mapM f (filter p l)
    = Ok (map snd (filter (fun q => p (fst q)) (combine l ys))).
Proof.
  induction l as [|x l IH]; intros ys H.
  - reflexivity.
  - destruct (mapM_cons_Ok f x l ys H) as (y & ys' & Hx & Hl & ->).
    cbn [filter combine fst]. destruct (p x).
    + cbn [mapM map snd]. rewrite Hx, (IH ys' Hl). reflexivity.
    + exact (IH ys' Hl).
Qed.

(** X7. Once [find_all_irrs] has returned, re-evaluating the NPVs on the
    plotted part of the grid ([-0.1 <= r <= 10.0]) cannot raise: the result
    is the sub-sequence of the NPV curve at the kept rates, one value per
    plotted rate. *)
Theorem plot_npvs_from_curve
    (fuel : nat) (cash_flows : list float) (rate_min rate_max step : float)
    (irrs rates npv_curve : list float) :
  find_all_irrs fuel cash_flows rate_min rate_max step = Ok (irrs, rates, npv_curve) ->
  exists plot_npvs,
    Project2.plot_npvs cash_flows rates = Ok plot_npvs
    /\ plot_npvs = map snd (filter (fun q => Project2.in_plot_range (fst q))
                              (combine rates npv_curve))
    /\ length plot_npvs = length (Project2.plot_rates rates)
    /\ Forall (fun r => In r rates /\ (-0.1 <=? r) = true /\ (r <=? 10.0) = true)
         (Project2.plot_rates rates).
Proof.
  intros H. destruct (find_all_irrs_Ok _ _ _ _ _ _ _ _ H) as (_ & Hm & _).
  pose proof (mapM_filter _ Project2.in_plot_range _ _ Hm) as Hp.
  fold (Project2.plot_rates rates) in Hp.
  eexists. split; [exact Hp|]. split; [reflexivity|]. split.
  - exact (mapM_length _ _ _ Hp).
  - apply Forall_forall. intros r Hr.
    apply filter_In in Hr. destruct Hr as [Hin Hr].
    apply andb_prop in Hr. destruct Hr as [H1 H2].
    split; [exact Hin|]. split; assumption.
Qed.

Lemma plot_npvs_from_curve_witness :
  exists plot_npvs,
    Project2.plot_npvs [-100; 60; 60] [-0.2; 0; 0.2] = Ok plot_npvs
    /\ plot_npvs = map snd (filter (fun q => Project2.in_plot_range (fst q))
                              (combine [-0.2; 0; 0.2]
                                 [68.749999999999986; 20; -8.3333333333333286]))
    /\ length plot_npvs = length (Project2.plot_rates [-0.2; 0; 0.2])
    /\ Forall (fun r => In r [-0.2; 0; 0.2]
                        /\ (-0.1 <=? r) = true /\ (r <=? 10.0) = true)
         (Project2.plot_rates [-0.2; 0; 0.2]).
Proof.
  apply (plot_npvs_from_curve 10 [-100; 60; 60] (-0.2) 0.25 0.2
           [0.1306623935699463] [-0.2; 0; 0.2]
           [68.749999999999986; 20; -8.3333333333333286]).
  vm_compute. reflexivity.
Defined.

(** ** The default call always ends *)

Lemma irr_bisection_outcome (cash_flows : list float) (lo hi tol : float)
    (max_iter : nat) :
  (1 <= max_iter)%nat ->
  arithmetic_outcome (irr_bisection_interval cash_flows lo hi tol max_iter).
Proof.
  intros Hn. unfold irr_bisection_interval.
  pose proof (npv_outcome lo cash_flows) as Hlo.
  destruct (npv lo cash_flows) as [a|e|]; cbn [bind]; try exact Hlo.
  pose proof (npv_outcome hi cash_flows) as Hhi.
  destruct (npv hi cash_flows) as [b|e|]; cbn [bind]; try exact Hhi.
  destruct (0 <? a * b); [exact I|].
  destruct max_iter as [|n]; [lia|]. cbn [bisect_loop].
  pose proof (bisect_body_outcome cash_flows tol
                (mk_bisect_state lo hi a b None)) as Hb.
  destruct (bisect_body cash_flows tol (mk_bisect_state lo hi a b None))
    as [[m|s']|e|]; cbn [bind].
  - exact I.
  - destruct Hb as [Hmid _]. exact (bisect_loop_bound_mid _ _ n s' _ Hmid).
  - destruct Hb as [-> | ->]; exact I.
  - contradiction.
Qed.

Lemma collect_irrs_outcome (cash_flows : list float) :
  forall intervals, arithmetic_outcome (collect_irrs cash_flows intervals).
Proof.
  induction intervals as [|[lo hi] rest IH]; cbn [collect_irrs]; [exact I|].
  pose proof (irr_bisection_outcome cash_flows lo hi default_tol default_max_iter)
    as Hi.
  destruct (irr_bisection_interval cash_flows lo hi default_tol default_max_iter)
    as [irr|e|]; cbn [bind].
  - destruct (collect_irrs cash_flows rest) as [irrs|e|]; cbn [bind];
      [exact I | exact IH | exact IH].
  - apply Hi. unfold default_max_iter. lia.
  - apply Hi. unfold default_max_iter. lia.
Qed.

Lemma default_rates_length : length default_rates = 10991%nat.
Proof. vm_compute. reflexivity. Qed.

Lemma default_rates_below_max :
  Forall (fun r => (r <? default_rate_max) = true) default_rates.
Proof.
  apply Forall_forall. apply forallb_forall. vm_compute. reflexivity.
Qed.

(** X8. Whatever the cash flows, the default call ends: after 10991 passes
    of the grid loop it either returns, with one NPV for each of the 10991
    grid rates, all of them below [rate_max = 10.0] (the accumulated
    rounding of [r += step] keeps [10.0] itself off the grid), or it
    raises ZeroDivisionError or OverflowError, and no other exception. *)
Theorem find_all_irrs_default_outcome (fuel : nat) (cash_flows : list float) :
  (10992 <= fuel)%nat ->
  match find_all_irrs fuel cash_flows
          default_rate_min default_rate_max default_step with
  | Ok (irrs, rates, npv_values) =>
      length rates = 10991%nat /\ length npv_values = 10991%nat
      /\ hd_error rates = Some default_rate_min
      /\ Forall (fun r => (r <? default_rate_max) = true) rates
  | Raise e => e = ZeroDivisionError \/ e = OverflowError
  | Diverge => False
  end.
Proof.
  intros Hf. unfold find_all_irrs. rewrite (default_rate_grid fuel Hf).
  pose proof (mapM_outcome (fun r => npv r cash_flows)
                (fun r => npv_outcome r cash_flows) default_rates) as Hm.
  destruct (mapM (fun r => npv r cash_flows) default_rates) as [vals|e|] eqn:Em;
    cbn [bind].
  - pose proof (collect_irrs_outcome cash_flows
                  (sign_change_intervals default_rates vals)) as Hc.
    destruct (collect_irrs cash_flows (sign_change_intervals default_rates vals))
      as [irrs|e|]; cbn [bind].
    + split; [exact default_rates_length|].
      split; [rewrite (mapM_length _ _ _ Em); exact default_rates_length|].
      split; [|exact default_rates_below_max].
      destruct default_rates_head as [rest ->]. reflexivity.
    + destruct e; try contradiction; [left | right]; reflexivity.
    + exact Hc.
  - destruct e; try contradiction; [left | right]; reflexivity.
  - exact Hm.
Qed.

Lemma find_all_irrs_default_outcome_witness :
  match find_all_irrs 11000 [-100; 121]
          default_rate_min default_rate_max default_step with
  | Ok (irrs, rates, npv_values) =>
      length rates = 10991%nat /\ length npv_values = 10991%nat
      /\ hd_error rates = Some default_rate_min
      /\ Forall (fun r => (r <? default_rate_max) = true) rates
  | Raise e => e = ZeroDivisionError \/ e = OverflowError
  | Diverge => False
  end.
Proof.
  apply (find_all_irrs_default_outcome 11000 [-100; 121]).
  apply Nat.leb_le. vm_compute. reflexivity.
Defined.

(** ** Division by one is exact *)

Open Scope Z_scope.

Lemma SFdiv1_bracket (x : spec_float) :
  valid_binary x = true -> SFfinite x ->
  forall c, valid_binary c = true -> SFfinite c ->
    (SFval c <= SFval x -> SFge_val (SF64div x SFone) (SFval c))
    /\ (SFval x <= SFval c -> SFle_val (SF64div x SFone) (SFval c)).
Proof.
  intros Hx Fx c Hc Fc.
  destruct x as [sx| | |sx mx ex]; try contradiction.
  - cbn [SF64div SFdiv SFone SFval].
    split; intros H; right; (split; [exact I|]); cbn [SFval]; lia.
  - cbn [valid_binary] in Hx.
    pose proof (bounded_inv _ _ Hx) as (Hex & Hd53 & _).
    set (d1 := Zpos (digits2_pos mx)) in *.
    set (X := Zpos mx * 2 ^ (ex + 1075)).
    assert (HX : 0 < X).
    { apply Z.mul_pos_pos; [lia | apply pow2_pos; lia]. }
    assert (Hx2 : SFval (S754_finite sx mx ex) = cond_Zopp sx X) by reflexivity.
    rewrite Hx2.
    unfold SF64div, SFdiv, SFone, SFdiv_core_binary. to_BinInt.
    change (Zdigits2 4503599627370496) with 53.
    cbn [Zdigits2]. fold d1. rewrite fexp64.
    set (e' := Z.min (Z.max (d1 + ex - (53 + -52) - 53) (-1074)) (ex - -52)).
    assert (He' : e' = Z.max (d1 + ex - 54) (-1074)) by (unfold e'; lia).
    destruct (ex - -52 - e') as [|s|s] eqn:Es; try lia.
    rewrite Z.shiftl_mul_pow2 by lia.
    pose proof (Z_div_mod (Zpos mx * 2 ^ Zpos s) 4503599627370496 ltac:(lia)) as Hdm.
    destruct (Z.div_eucl (Zpos mx * 2 ^ Zpos s) 4503599627370496) as [q r].
    destruct Hdm as [Hdm Hr].
    assert (HG : 0 < 2 ^ (e' + 1075)) by (apply pow2_pos; lia).
    assert (Hm' : 0 < Zpos mx * 2 ^ Zpos s).
    { apply Z.mul_pos_pos; [lia | apply pow2_pos; lia]. }
    assert (Hq : 0 <= q) by nia.
    assert (HTX : 4503599627370496 * X
                  = (4503599627370496 * q + r) * 2 ^ (e' + 1075)).
    { rewrite <- Hdm. unfold X. change 4503599627370496 with (2 ^ 52).
      rewrite <- Z.mul_assoc, <- pow2_add by lia.
      rewrite (Z.mul_comm (2 ^ 52)), <- Z.mul_assoc, <- pow2_add by lia.
      f_equal. f_equal. lia. }
    destruct (quotient_bracket 4503599627370496 _ _ _ _ ltac:(lia) HG HTX Hr)
      as [Hbr Hexact].
    assert (Hloc : new_location 4503599627370496 r = loc_Exact <-> r = 0).
    { unfold new_location. change (Z.even 4503599627370496) with true.
      unfold new_location_even. to_BinInt.
      destruct (Z.eqb_spec r 0) as [->|Hne]; split; intros H;
        try reflexivity; try discriminate; contradiction. }
    assert (Halign : e' <= fexp prec emax (Zdigits2 q + e')).
    { rewrite fexp64. destruct (Z.eq_dec e' (-1074)) as [->|Hne]; [lia|].
      assert (Es' : Zpos s = 106 - d1) by lia.
      destruct (digits2_pos_bounds mx) as [Hlo _]. fold d1 in Hlo.
      assert (Hq53 : 2 ^ 53 <= q).
      { assert (H105 : 2 ^ 105 <= Zpos mx * 2 ^ Zpos s).
        { replace 105 with ((d1 - 1) + Zpos s) by lia.
          rewrite pow2_add by lia.
          apply Z.mul_le_mono_nonneg_r; [apply Z.lt_le_incl, pow2_pos|]; lia. }
        change (2 ^ 105) with (4503599627370496 * 2 ^ 53) in H105. lia. }
      pose proof (Zdigits2_ge q 54 Hq53 ltac:(lia)). lia. }
    destruct (binary_round_aux_bracket (xorb sx false) q e'
                (new_location 4503599627370496 r) X
                Hq ltac:(lia) Halign Hbr)
      as (q' & e2 & Hq' & He2 & Hres & G1 & G2).
    { rewrite Hloc. exact Hexact. }
    rewrite xorb_false_r in *.
    destruct (signed_bracket sx X _ q' e2 HX Hq' He2 Hres G1 G2 c Hc Fc)
      as [Hge Hle].
    split; intros H; [apply Hge | apply Hle]; lia.
Qed.

(** Two binary64 numbers with the same non-zero value are the same. *)
Lemma SFval_inj (s1 s2 : bool) (m1 m2 : positive) (e1 e2 : Z) :
  bounded prec emax m1 e1 = true ->
  bounded prec emax m2 e2 = true ->
  SFval (S754_finite s1 m1 e1) = SFval (S754_finite s2 m2 e2) ->
  S754_finite s1 m1 e1 = S754_finite s2 m2 e2.
Proof.
  intros B1 B2 H. cbn [SFval] in H.
  pose proof (bounded_inv _ _ B1) as (He1 & _).
  pose proof (bounded_inv _ _ B2) as (He2 & _).
  assert (P1 : 0 < Zpos m1 * 2 ^ (e1 + 1075)).
  { apply Z.mul_pos_pos; [lia | apply pow2_pos; lia]. }
  assert (P2 : 0 < Zpos m2 * 2 ^ (e2 + 1075)).
  { apply Z.mul_pos_pos; [lia | apply pow2_pos; lia]. }
  assert (Hs : s1 = s2 /\ Zpos m1 * 2 ^ (e1 + 1075) = Zpos m2 * 2 ^ (e2 + 1075)).
  { destruct s1, s2; cbn [cond_Zopp] in H; split; try reflexivity; lia. }
  destruct Hs as [-> Hm].
  pose proof (canonical_compare m1 m2 e1 e2 B1 B2) as Hc.
  rewrite Hm, Z.compare_refl in Hc.
  destruct (Z.compare_spec e1 e2) as [->| |]; try discriminate.
  change (Pos.compare_cont Eq m1 m2) with (Pos.compare m1 m2) in Hc.
  apply Pos.compare_eq in Hc. now subst.
Qed.

Close Scope Z_scope.

Lemma Prim2SF_one : Prim2SF 1 = SFone.
Proof. reflexivity. Qed.

Lemma Prim2SF_div_one (x : float) : Prim2SF (x / 1) = Prim2SF x.
Proof.
  rewrite div_spec, Prim2SF_one.
  pose proof (Prim2SF_valid x) as Vx.
  pose proof (Prim2SF_valid (x / 1)) as Vq.
  rewrite div_spec, Prim2SF_one in Vq.
  destruct (Prim2SF x) as [s|s| |s m e] eqn:Ex.
  - destruct s; reflexivity.
  - destruct s; reflexivity.
  - reflexivity.
  - destruct (SFdiv1_bracket _ Vx I _ Vx I) as [Hge Hle].
    destruct (SFge_SFle_fin _ _ _ (Hge ltac:(lia)) (Hle ltac:(lia))) as [Fq Hq].
    assert (Hv : SFval (SF64div (S754_finite s m e) SFone)
                 = SFval (S754_finite s m e)) by lia.
    cbn [valid_binary] in Vx.
    pose proof (bounded_inv _ _ Vx) as (He & _).
    assert (P : (0 < Zpos m * 2 ^ (e + 1075))%Z).
    { apply Z.mul_pos_pos; [lia | apply pow2_pos; lia]. }
    destruct (SF64div (S754_finite s m e) SFone) as [sq|sq| |sq mq eq];
      try contradiction.
    + cbn [SFval] in Hv. destruct s; cbn [cond_Zopp] in Hv; lia.
    + cbn [valid_binary] in Vq. exact (SFval_inj _ _ _ _ _ _ Vq Vx Hv).
Qed.

Lemma div_one (x : float) : x / 1 = x.
Proof.
  rewrite <- (SF2Prim_Prim2SF (x / 1)), Prim2SF_div_one.
  apply SF2Prim_Prim2SF.
Qed.

(** ** NPV at a zero rate *)

Lemma pow_one (t : nat) : PyFloat.pow 1 t = Ok 1.
Proof. destruct t; reflexivity. Qed.

Lemma npv_zero_rate_suffix (cash_flows : list float) :
  forall suffix before total,
    cash_flows = before ++ suffix ->
    foldM (npv_step 0 cash_flows) (seq (length before) (length suffix)) total
    = Ok (fold_left (fun total c => total + c) suffix total).
Proof.
  induction suffix as [|c suffix IH]; intros before total E; [reflexivity|].
  cbn [length seq foldM fold_left].
  assert (Hstep : npv_step 0 cash_flows total (length before) = Ok (total + c)).
  { unfold npv_step. change (1 + 0) with 1. rewrite pow_one. cbn [bind].
    unfold PyFloat.truediv. change (1 =? 0) with false. cbn [bind].
    rewrite E, nth_middle, div_one. reflexivity. }
  rewrite Hstep. cbn [bind].
  replace (S (length before)) with (length (before ++ [c]))
    by (rewrite length_app; simpl; lia).
  apply IH. rewrite <- app_assoc. exact E.
Qed.

(** X9. At a zero discount rate [npv] never raises and returns the plain
    binary64 sum of the cash flows, added left to right from [0.0]: every
    discount factor [(1 + 0.0) ** t] is exactly [1.0] and dividing by it
    changes nothing.  This is the first row of the script's NPV table. *)
Theorem npv_at_zero_rate (cash_flows : list float) :
  npv 0 cash_flows = Ok (fold_left (fun total c => total + c) cash_flows 0)
  /\ (forall table, Project2.npv_values_table cash_flows = Ok table ->
        hd_error table = Some (fold_left (fun total c => total + c) cash_flows 0)).
Proof.
  assert (H0 : npv 0 cash_flows
               = Ok (fold_left (fun total c => total + c) cash_flows 0)).
  { exact (npv_zero_rate_suffix cash_flows cash_flows [] 0 eq_refl). }
  split; [exact H0|].
  intros table Ht. unfold Project2.npv_values_table, Project2.discount_rates in Ht.
  apply mapM_cons_Ok in Ht. destruct Ht as (y & ys & Hy & _ & ->).
  rewrite H0 in Hy. injection Hy as <-. reflexivity.
Qed.

(** ** The price grid: signs and final prices *)

Lemma not_ltb_zero_sign (x : float) : (x <? 0) = false -> sign_is false x.
Proof.
  unfold sign_is. rewrite ltb_spec, Prim2SF_zero.
  destruct (Prim2SF x) as [s|[|]| |[|] m e]; cbn; intros H;
    try exact I; try reflexivity; discriminate.
Qed.

Lemma sigma_squared : PyFloat.pow Project1.sigma 2 = Ok 0.040000000000000008.
Proof. vm_compute. reflexivity. Qed.

Lemma steps_value : Project1.steps = 252%nat.
Proof. vm_compute. reflexivity. Qed.

(** X10. A simulated price is never negative, provided [exp] never returns
    a negative number: every entry of the grid is zero, positive or a NaN. *)
Theorem gbm_prices_never_negative (np_exp : float -> float)
    (Z : nat -> nat -> float) :
  (forall x, (np_exp x <? 0) = false) ->
  exists grid,
    Project1.S np_exp Z = Ok grid
    /\ forall t i, (t <= Project1.steps)%nat -> (i < Project1.N)%nat ->
         (nth i (nth t grid []) 0 <? 0) = false.
Proof.
  intros Hexp.
  destruct (gbm_grid_spec np_exp Z _ sigma_squared)
    as (grid & Hgrid & Hlen & Hrows & H0 & Hrec).
  exists grid. split; [exact Hgrid|].
  intros t i Ht Hi. apply sign_false_not_ltb_zero.
  induction t as [|t IH].
  - rewrite H0, nth_repeat_lt by exact Hi. vm_compute. reflexivity.
  - rewrite (Hrec (S t) i) by lia.
    replace (S t - 1)%nat with t by lia.
    apply (mul_sign false false); [apply IH; lia|].
    unfold gbm_growth. apply not_ltb_zero_sign, Hexp.
Qed.

Lemma gbm_prices_never_negative_witness :
  exists grid,
    Project1.S (fun _ => 1.01) (fun _ _ => 0) = Ok grid
    /\ forall t i, (t <= Project1.steps)%nat -> (i < Project1.N)%nat ->
         (nth i (nth t grid []) 0 <? 0) = false.
Proof.
  apply (gbm_prices_never_negative (fun _ => 1.01) (fun _ _ => 0)).
  intros x. reflexivity.
Defined.

Lemma getitem_last_nth {A : Type} (a : list A) (d : A) :
  a <> [] -> Project1Payoff.getitem_last a = Ok (nth (length a - 1) a d).
Proof.
  destruct a as [|x a]; [contradiction|]. intros _.
  unfold Project1Payoff.getitem_last. apply getitem_nth. simpl. lia.
Qed.

Lemma final_prices_row (np_exp : float -> float) (Z : nat -> nat -> float) :
  exists grid,
    Project1.S np_exp Z = Ok grid
    /\ filled_up_to np_exp Z 0.040000000000000008 Project1.steps grid
    /\ Project1Payoff.final_prices np_exp Z = Ok (nth Project1.steps grid []).
Proof.
  destruct (gbm_grid_spec np_exp Z _ sigma_squared) as (grid & Hgrid & Hf).
  exists grid. split; [exact Hgrid|]. split; [exact Hf|].
  destruct Hf as (Hlen & _).
  unfold Project1Payoff.final_prices. rewrite Hgrid. cbn [bind].
  rewrite (getitem_last_nth grid []).
  - rewrite Hlen. replace (Project1.steps + 1 - 1)%nat with Project1.steps by lia.
    reflexivity.
  - intros ->. simpl in Hlen. lia.
Qed.

(** X11. [final_prices] is row 252 of the grid, one price per path, and the
    final price of path [i] is [S0] multiplied in turn by the 252 growth
    factors of that path: it depends on the shocks [Z[0][i] .. Z[251][i]]
    of path [i] only. *)
Theorem final_prices_product (np_exp : float -> float) (Z : nat -> nat -> float)
    (i : nat) :
  (i < Project1.N)%nat ->
  exists final_prices sigma2,
    Project1Payoff.final_prices np_exp Z = Ok final_prices
    /\ PyFloat.pow Project1.sigma 2 = Ok sigma2
    /\ length final_prices = 1000%nat
    /\ nth i final_prices 0
       = fold_left
           (fun price t =>
              price * np_exp ((Project1.mu - 0.5 * sigma2) * Project1.dt
                              + Project1.sigma * sqrt Project1.dt * Z t i))
           (seq 0 252) Project1.S0.
Proof.
  intros Hi.
  destruct (final_prices_row np_exp Z)
    as (grid & Hgrid & (Hlen & Hrows & H0 & Hrec) & Hfp).
  exists (nth Project1.steps grid []), 0.040000000000000008.
  split; [exact Hfp|]. split; [exact sigma_squared|].
  split; [exact (Hrows Project1.steps (le_n _))|].
  rewrite <- steps_value.
  assert (Hgen : forall t, (t <= Project1.steps)%nat ->
            nth i (nth t grid []) 0
            = fold_left
                (fun price t =>
                   price * gbm_growth np_exp Z 0.040000000000000008 t i)
                (seq 0 t) Project1.S0).
  { induction t as [|t IH]; intros Ht.
    - rewrite H0, nth_repeat_lt by exact Hi. reflexivity.
    - rewrite seq_S, fold_left_app, <- IH by lia. cbn [fold_left].
      rewrite (Hrec (S t) i) by lia.
      replace (S t - 1)%nat with t by lia. reflexivity. }
  exact (Hgen Project1.steps (le_n _)).
Qed.

Lemma final_prices_product_witness :
  exists final_prices sigma2,
    Project1Payoff.final_prices (fun x => 1 + x) (fun _ _ => 0.5) = Ok final_prices
    /\ PyFloat.pow Project1.sigma 2 = Ok sigma2
    /\ length final_prices = 1000%nat
    /\ nth 3 final_prices 0
       = fold_left
           (fun price t =>
              price * (fun x => 1 + x)
                        ((Project1.mu - 0.5 * sigma2) * Project1.dt
                         + Project1.sigma * sqrt Project1.dt
                           * (fun _ _ : nat => 0.5) t 3%nat))
           (seq 0 252) Project1.S0.
Proof.
  apply (final_prices_product (fun x => 1 + x) (fun _ _ => 0.5) 3).
  apply Nat.ltb_lt. vm_compute. reflexivity.
Defined.

(** ** Option payoffs *)

Lemma SFsub_add_opp (x y : spec_float) :
  SF64sub x y = SF64add x (SFopp y).
Proof.
  destruct x as [sx|sx| |sx mx ex], y as [sy|sy| |sy my ey];
    try reflexivity;
    try (destruct sx, sy; reflexivity); destruct sy; reflexivity.
Qed.

Lemma SFopp_valid (y : spec_float) :
  valid_binary y = true -> valid_binary (SFopp y) = true.
Proof. destruct y; intros H; exact H. Qed.

Lemma SFopp_finite (y : spec_float) : SFfinite y -> SFfinite (SFopp y).
Proof. destruct y; intros H; exact H. Qed.

Lemma SFopp_val (y : spec_float) : SFval (SFopp y) = (- SFval y)%Z.
Proof.
  destruct y as [s|s| |s m e]; try reflexivity.
  cbn [SFopp SFval]. destruct s; cbn [negb cond_Zopp]; lia.
Qed.

(** The difference of two numbers lies on the same side of every binary64
    number as the exact difference. *)
Lemma sub_bracket (x y c : float) :
  fin x -> fin y -> fin c ->
  ((val c <= val x - val y)%Z -> SFge_val (Prim2SF (x - y)) (val c))
  /\ ((val x - val y <= val c)%Z -> SFle_val (Prim2SF (x - y)) (val c)).
Proof.
  intros Fx Fy Fc. rewrite sub_spec, SFsub_add_opp.
  destruct (SFadd_bracket (Prim2SF x) (SFopp (Prim2SF y))
              (Prim2SF_valid x) (SFopp_valid _ (Prim2SF_valid y))
              Fx (SFopp_finite _ Fy) (Prim2SF c) (Prim2SF_valid c) Fc)
    as [Hge Hle].
  rewrite SFopp_val in Hge, Hle. unfold val.
  split; intros H; [apply Hge | apply Hle]; lia.
Qed.

Lemma val_even (x : float) : exists k, val x = (2 * k)%Z.
Proof.
  unfold val. pose proof (Prim2SF_valid x) as V.
  destruct (Prim2SF x) as [s|s| |s m e]; try (exists 0%Z; reflexivity).
  cbn [valid_binary] in V. destruct (bounded_inv _ _ V) as (He & _).
  cbn [SFval].
  replace (e + 1075)%Z with (1 + (e + 1074))%Z by lia.
  rewrite (pow2_add 1 (e + 1074)) by lia. change (2 ^ 1)%Z with 2%Z.
  exists (cond_Zopp s (Zpos m * 2 ^ (e + 1074))).
  destruct s; cbn [cond_Zopp]; lia.
Qed.

(** The smallest positive binary64 number. *)
Lemma val_min_subnormal : fin 0x1p-1074 /\ val 0x1p-1074 = 2%Z.
Proof. split; [exact I | reflexivity]. Qed.

Lemma gtb_zero_facts (x : float) :
  (0 <? x) = true -> is_nan x = false /\ (x <=? 0) = false.
Proof.
  intros H. unfold is_nan. rewrite eqb_spec, leb_spec.
  rewrite ltb_spec in H. rewrite Prim2SF_zero in *.
  pose proof (SFcompare_val (Prim2SF x) (Prim2SF x)
                (Prim2SF_valid x) (Prim2SF_valid x)) as Hc.
  unfold SFeqb.
  destruct (Prim2SF x) as [s|[|]| |[|] m e]; try discriminate H.
  - split; reflexivity.
  - rewrite (Hc I I), Z.compare_refl. split; reflexivity.
Qed.

Lemma not_leb_zero_not_ltb (x : float) : (x <=? 0) = false -> (x <? 0) = false.
Proof.
  rewrite leb_spec, ltb_spec, Prim2SF_zero.
  destruct (Prim2SF x) as [s|[|]| |[|] m e]; intros H;
    try reflexivity; discriminate H.
Qed.

Lemma is_nan_not_ltb (x y : float) : is_nan x = true -> (x <? y) = false.
Proof.
  unfold is_nan. rewrite eqb_spec, ltb_spec. intros H.
  pose proof (SFcompare_val (Prim2SF x) (Prim2SF x)
                (Prim2SF_valid x) (Prim2SF_valid x)) as Hc.
  unfold SFeqb in H.
  destruct (Prim2SF x) as [s|s| |s m e].
  - destruct s; discriminate H.
  - destruct s; discriminate H.
  - reflexivity.
  - rewrite (Hc I I), Z.compare_refl in H. discriminate H.
Qed.

Lemma is_nan_Prim2SF (x : float) :
  Prim2SF x <> S754_nan -> is_nan x = false.
Proof.
  intros N. unfold is_nan. rewrite eqb_spec.
  pose proof (SFcompare_val (Prim2SF x) (Prim2SF x)
                (Prim2SF_valid x) (Prim2SF_valid x)) as Hc.
  unfold SFeqb.
  destruct (Prim2SF x) as [s|[|]| |s m e]; try reflexivity; try contradiction.
  rewrite (Hc I I), Z.compare_refl. reflexivity.
Qed.

(** A result that is at most zero is not a NaN and compares [<= 0]. *)
Lemma SFle_zero_leb (x : float) :
  SFle_val (Prim2SF x) 0 -> is_nan x = false /\ (x <=? 0) = true.
Proof.
  intros H. split.
  - apply is_nan_Prim2SF. intros E. rewrite E in H.
    destruct H as [H|[H _]]; [discriminate | contradiction].
  - rewrite leb_spec, Prim2SF_zero.
    pose proof (Prim2SF_valid x) as V.
    destruct (Prim2SF x) as [s|[|]| |[|] m e]; try reflexivity.
    all: exfalso; destruct H as [H|[F H]]; [discriminate|]; try contradiction.
    cbn [SFval cond_Zopp] in H. cbn [valid_binary] in V.
    destruct (bounded_inv _ _ V) as (He & _).
    assert (0 < Zpos m * 2 ^ (e + 1075))%Z
      by (apply Z.mul_pos_pos; [lia | apply pow2_pos; lia]).
    lia.
Qed.

Lemma fin_K : fin Project1Payoff.K.
Proof. exact I. Qed.

Lemma payoff_never_negative (p : float) :
  (Project1Payoff.np_maximum (p - Project1Payoff.K) 0 <? 0) = false.
Proof.
  unfold Project1Payoff.np_maximum.
  destruct (is_nan (p - Project1Payoff.K)) eqn:En.
  - exact (is_nan_not_ltb _ _ En).
  - change (is_nan 0) with false. cbv iota.
    destruct (p - Project1Payoff.K <=? 0) eqn:E.
    + reflexivity.
    + exact (not_leb_zero_not_ltb _ E).
Qed.

Lemma payoff_at_or_below_strike (p : float) :
  (p <=? Project1Payoff.K) = true ->
  (Project1Payoff.np_maximum (p - Project1Payoff.K) 0 =? 0) = true.
Proof.
  intros Hp.
  assert (Hle : SFle_val (Prim2SF (p - Project1Payoff.K)) 0).
  { destruct (fin_cases p) as [Fp|[Ep|[s Ep]]].
    - rewrite <- val_zero.
      apply (sub_bracket p Project1Payoff.K 0 Fp fin_K fin_zero).
      rewrite val_zero.
      apply (leb_val p Project1Payoff.K Fp fin_K) in Hp. lia.
    - rewrite leb_spec, Ep in Hp. discriminate Hp.
    - rewrite leb_spec, Ep in Hp. destruct s; [|discriminate Hp].
      left. rewrite sub_spec, Ep. reflexivity. }
  destruct (SFle_zero_leb _ Hle) as [En Hz].
  unfold Project1Payoff.np_maximum. rewrite En.
  change (is_nan 0) with false. cbv iota. rewrite Hz. reflexivity.
Qed.

Lemma payoff_above_strike (p : float) :
  (Project1Payoff.K <? p) = true ->
  Project1Payoff.np_maximum (p - Project1Payoff.K) 0 = p - Project1Payoff.K
  /\ (0 <? p - Project1Payoff.K) = true.
Proof.
  intros Hp.
  assert (Hge : SFge_val (Prim2SF (p - Project1Payoff.K)) 2).
  { destruct (fin_cases p) as [Fp|[Ep|[s Ep]]].
    - destruct val_min_subnormal as [Fc Vc]. rewrite <- Vc.
      apply (sub_bracket p Project1Payoff.K 0x1p-1074 Fp fin_K Fc).
      rewrite Vc.
      apply (ltb_val Project1Payoff.K p fin_K Fp) in Hp.
      destruct (val_even p) as [k1 E1]. destruct (val_even Project1Payoff.K) as [k2 E2].
      lia.
    - rewrite ltb_spec, Ep in Hp. discriminate Hp.
    - rewrite ltb_spec, Ep in Hp. destruct s; [discriminate Hp|].
      left. rewrite sub_spec, Ep. reflexivity. }
  assert (Hpos : (0 <? p - Project1Payoff.K) = true).
  { destruct Hge as [E|[F V]].
    - rewrite ltb_spec, E. reflexivity.
    - apply (ltb_val 0 _ fin_zero F). rewrite val_zero.
      fold (val (p - Project1Payoff.K)) in V. lia. }
  split; [|exact Hpos].
  destruct (gtb_zero_facts _ Hpos) as [En Hl].
  unfold Project1Payoff.np_maximum. rewrite En.
  change (is_nan 0) with false. cbv iota. rewrite Hl. reflexivity.
Qed.

(** X12. There is one payoff per path, and a payoff is never negative: it
    is zero for a path that ends at or below the strike [K = 105], and
    the positive difference [final price - K] for a path that ends above
    it. *)
Theorem payoffs_of_final_prices (np_exp : float -> float)
    (Z : nat -> nat -> float) (i : nat) :
  (i < Project1.N)%nat ->
  exists final_prices payoffs,
    Project1Payoff.final_prices np_exp Z = Ok final_prices
    /\ Project1Payoff.payoffs np_exp Z = Ok payoffs
    /\ length payoffs = 1000%nat
    /\ (nth i payoffs 0 <? 0) = false
    /\ ((nth i final_prices 0 <=? Project1Payoff.K) = true ->
        (nth i payoffs 0 =? 0) = true)
    /\ ((Project1Payoff.K <? nth i final_prices 0) = true ->
        nth i payoffs 0 = nth i final_prices 0 - Project1Payoff.K
        /\ (0 <? nth i payoffs 0) = true).
Proof.
  intros Hi.
  destruct (final_prices_row np_exp Z) as (grid & _ & (_ & Hrows & _) & Hfp).
  pose proof (Hrows Project1.steps (le_n _)) as Hlen.
  set (fp := nth Project1.steps grid []) in *.
  exists fp, (map (fun p => Project1Payoff.np_maximum (p - Project1Payoff.K) 0) fp).
  split; [exact Hfp|].
  split; [unfold Project1Payoff.payoffs; rewrite Hfp; reflexivity|].
  split; [rewrite length_map; exact Hlen|].
  assert (Hnth : nth i (map (fun p => Project1Payoff.np_maximum
                                        (p - Project1Payoff.K) 0) fp) 0
                 = Project1Payoff.np_maximum (nth i fp 0 - Project1Payoff.K) 0).
  { rewrite (nth_indep (map (fun p => Project1Payoff.np_maximum
                                        (p - Project1Payoff.K) 0) fp) 0
               (Project1Payoff.np_maximum (0 - Project1Payoff.K) 0))
      by (rewrite length_map, Hlen; exact Hi).
    exact (map_nth (fun p => Project1Payoff.np_maximum (p - Project1Payoff.K) 0)
             fp 0 i). }
  rewrite Hnth.
  split; [exact (payoff_never_negative _)|].
  split; [exact (payoff_at_or_below_strike _)|].
  intros Hp. destruct (payoff_above_strike _ Hp) as [E Hpos].
  rewrite E. split; [reflexivity | exact Hpos].
Qed.

Lemma payoffs_of_final_prices_witness :
  exists final_prices payoffs,
    Project1Payoff.final_prices (fun x => 1 + x) (fun _ _ => 0.5) = Ok final_prices
    /\ Project1Payoff.payoffs (fun x => 1 + x) (fun _ _ => 0.5) = Ok payoffs
    /\ length payoffs = 1000%nat
    /\ (nth 3 payoffs 0 <? 0) = false
    /\ ((nth 3 final_prices 0 <=? Project1Payoff.K) = true ->
        (nth 3 payoffs 0 =? 0) = true)
    /\ ((Project1Payoff.K <? nth 3 final_prices 0) = true ->
        nth 3 payoffs 0 = nth 3 final_prices 0 - Project1Payoff.K
        /\ (0 <? nth 3 payoffs 0) = true).
Proof.
  apply (payoffs_of_final_prices (fun x => 1 + x) (fun _ _ => 0.5) 3).
  apply Nat.ltb_lt. vm_compute. reflexivity.
Defined.

(** ** Products of numbers that are not tiny *)

Open Scope Z_scope.

(** The product of two binary64 numbers of magnitude at least [2^-480] is
    not a zero: it is a number or an infinity with the product's sign. *)
Lemma SFmul_finite_nonzero (sx sy : bool) (mx my : positive) (ex ey : Z) :
  bounded prec emax mx ex = true -> bounded prec emax my ey = true ->
  -532 <= ex -> -532 <= ey ->
  match SF64mul (S754_finite sx mx ex) (S754_finite sy my ey) with
  | S754_finite s _ _ | S754_infinity s => s = xorb sx sy
  | _ => False
  end.
Proof.
  intros Bx By Hx Hy. cbn [SF64mul SFmul].
  pose proof (bounded_inv _ _ Bx) as (Hex & _ & Hdx).
  pose proof (bounded_inv _ _ By) as (Hey & _ & _).
  destruct (digits2_pos_bounds mx) as [Hmx _]. rewrite Hdx in Hmx by lia.
  change (2 ^ (53 - 1)) with 4503599627370496 in Hmx.
  set (P := Zpos (mx * my)).
  assert (HP : 4503599627370496 <= P) by (unfold P; nia).
  assert (Hd : 53 <= Zdigits2 P).
  { apply Zdigits2_ge; [exact HP | lia]. }
  set (X := P * 2 ^ (ex + ey + 1075)).
  assert (HG : 2 <= 2 ^ (ex + ey + 1075)).
  { change 2 with (2 ^ 1) at 1. apply pow2_le. lia. }
  assert (HX : 2 <= X) by (unfold X; nia).
  destruct (binary_round_aux_bracket (xorb sx sy) P (ex + ey) loc_Exact X)
    as (q & e2 & Hq & He2 & Hres & G1 & _).
  - lia.
  - lia.
  - rewrite fexp64. lia.
  - unfold X. nia.
  - split; reflexivity.
  - to_BinInt. fold P. rewrite Hres.
    specialize (G1 1%positive (-1074) eq_refl).
    change (Zpos 1 * 2 ^ (-1074 + 1075)) with 2 in G1.
    specialize (G1 HX).
    assert (Hpos : 0 < 2 ^ (e2 + 1075)) by (apply pow2_pos; lia).
    destruct q as [|p|p]; [lia | | lia].
    destruct (e2 <=? 971); reflexivity.
Qed.

Close Scope Z_scope.

(** [2^-480]: two numbers at least this large in magnitude have a product
    that does not underflow to zero. *)
Lemma val_product_bound : fin product_bound /\ val product_bound = (2 ^ 595)%Z.
Proof. split; [exact I | reflexivity]. Qed.

Lemma abs_bound_exponent (x : float) (s : bool) (m : positive) (e : Z) :
  Prim2SF x = S754_finite s m e ->
  (product_bound <=? abs x) = true ->
  (-532 <= e)%Z.
Proof.
  intros E H. destruct val_product_bound as [Fb Vb].
  pose proof (Prim2SF_valid x) as V. rewrite E in V. cbn [valid_binary] in V.
  assert (Ea : Prim2SF (abs x) = S754_finite false m e)
    by (rewrite abs_spec, E; reflexivity).
  assert (Fa : fin (abs x)) by (unfold fin; rewrite Ea; exact I).
  apply (leb_val _ _ Fb Fa) in H. rewrite Vb in H.
  unfold val in H. rewrite Ea in H. cbn [SFval cond_Zopp] in H.
  pose proof (bounded_value_lt _ _ V) as Hlt.
  destruct (Z_lt_le_dec e (-532)) as [Hlow|]; [exfalso | assumption].
  assert (2 ^ (e + 1128) <= 2 ^ 595)%Z by (apply pow2_le; lia).
  lia.
Qed.

(** Numbers of strictly opposite sign, neither of them tiny, have a
    product below zero. *)
Lemma mul_opposite_signs_neg (a b : float) :
  ((a <? 0) = true /\ (0 <? b) = true) \/ ((0 <? a) = true /\ (b <? 0) = true) ->
  (product_bound <=? abs a) = true ->
  (product_bound <=? abs b) = true ->
  (a * b <? 0) = true.
Proof.
  intros Hs Ha Hb.
  pose proof (abs_bound_exponent a) as Ea.
  pose proof (abs_bound_exponent b) as Eb.
  pose proof (Prim2SF_valid a) as Va. pose proof (Prim2SF_valid b) as Vb.
  rewrite !ltb_spec, Prim2SF_zero in Hs.
  rewrite ltb_spec, mul_spec, Prim2SF_zero.
  destruct (Prim2SF a) as [sa|sa| |sa ma ea], (Prim2SF b) as [sb|sb| |sb mb eb];
    try (exfalso; destruct Hs as [[H1 H2]|[H1 H2]];
         first [discriminate H1 | discriminate H2
               |destruct sa; discriminate H1 | destruct sb; discriminate H2]).
  - destruct sa, sb; try reflexivity;
      exfalso; destruct Hs as [[H1 H2]|[H1 H2]]; discriminate.
  - destruct sa, sb; try reflexivity;
      exfalso; destruct Hs as [[H1 H2]|[H1 H2]]; discriminate.
  - destruct sa, sb; try reflexivity;
      exfalso; destruct Hs as [[H1 H2]|[H1 H2]]; discriminate.
  - cbn [valid_binary] in Va, Vb.
    pose proof (SFmul_finite_nonzero sa sb ma mb ea eb Va Vb
                  (Ea _ _ _ eq_refl Ha) (Eb _ _ _ eq_refl Hb)) as Hm.
    assert (Hx : xorb sa sb = true).
    { destruct sa, sb; try reflexivity;
        exfalso; destruct Hs as [[H1 H2]|[H1 H2]]; discriminate. }
    rewrite Hx in Hm.
    destruct (SF64mul (S754_finite sa ma ea) (S754_finite sb mb eb))
      as [s|s| |s m e]; try contradiction; subst s; reflexivity.
Qed.

(** ** The bisection keeps a sign change between its endpoints *)

Lemma fin_abs (x : float) : fin x -> fin (abs x).
Proof.
  unfold fin. rewrite abs_spec. destruct (Prim2SF x); intros H; exact H.
Qed.

Lemma is_nan_false_Prim2SF (x : float) :
  is_nan x = false -> Prim2SF x <> S754_nan.
Proof.
  unfold is_nan. rewrite eqb_spec. intros H E. rewrite E in H. discriminate H.
Qed.

(** A midpoint NPV that is a number and not below the tolerance is not
    tiny either, for a tolerance of at least [2^-480]. *)
Lemma abs_not_below_tol (v tol : float) :
  is_nan v = false -> (abs v <? tol) = false ->
  (product_bound <=? tol) = true ->
  (product_bound <=? abs v) = true.
Proof.
  intros Hn Ht Hb. destruct val_product_bound as [Fb Vb].
  pose proof (is_nan_false_Prim2SF v Hn) as Nv.
  destruct (fin_cases v) as [Fv|[Ev|[s Ev]]]; [|contradiction|].
  - pose proof (fin_abs v Fv) as Fa.
    destruct (fin_cases tol) as [Ft|[Et|[st Et]]].
    + apply (leb_val _ _ Fb Fa).
      apply (leb_val _ _ Fb Ft) in Hb.
      destruct (Z_lt_le_dec (val (abs v)) (val tol)) as [Hlt|Hle]; [|lia].
      apply (ltb_val _ _ Fa Ft) in Hlt. rewrite Hlt in Ht. discriminate Ht.
    + rewrite leb_spec, Et in Hb.
      destruct (Prim2SF product_bound); discriminate Hb.
    + rewrite leb_spec, Et in Hb. rewrite ltb_spec, Et in Ht.
      unfold fin in Fa.
      destruct st; [discriminate Hb|].
      destruct (Prim2SF (abs v)) as [sa|sa| |sa ma ea]; try contradiction;
        discriminate Ht.
  - rewrite leb_spec, abs_spec, Ev. reflexivity.
Qed.

Lemma abs_bound_strict_sign (v : float) :
  (product_bound <=? abs v) = true -> (v <? 0) = true \/ (0 <? v) = true.
Proof.
  rewrite leb_spec, abs_spec, !ltb_spec, Prim2SF_zero.
  destruct (Prim2SF v) as [s|[|]| |[|] m e]; intros H;
    try discriminate H; first [left; reflexivity | right; reflexivity].
Qed.

Lemma ltb_zero_asym (v : float) : (v <? 0) = true -> (0 <? v) = true -> False.
Proof.
  rewrite !ltb_spec, Prim2SF_zero.
  destruct (Prim2SF v) as [s|[|]| |[|] m e]; intros H1 H2; discriminate.
Qed.

Lemma bisect_state_at_S (cash_flows : list float) (tol : float) :
  forall k s0 s',
    bisect_state_at cash_flows tol (S k) s0 = Ok (Some s') ->
    exists s, bisect_state_at cash_flows tol k s0 = Ok (Some s)
              /\ bisect_body cash_flows tol s = Ok (inr s').
Proof.
  induction k as [|k IH]; intros s0 s' H.
  - cbn [bisect_state_at] in H |- *.
    destruct (bisect_body cash_flows tol s0) as [[m|s1]|e|] eqn:Eb;
      cbn [bind] in H; try discriminate.
    injection H as <-. exists s0. split; [reflexivity | exact Eb].
  - change (bisect_state_at cash_flows tol (S (S k)) s0)
      with (r <- bisect_body cash_flows tol s0 ;;
            match r with
            | inl _ => Ok None
            | inr s1 => bisect_state_at cash_flows tol (S k) s1
            end) in H.
    cbn [bisect_state_at].
    destruct (bisect_body cash_flows tol s0) as [[m|s1]|e|];
      cbn [bind] in H |- *; try discriminate.
    exact (IH s1 s' H).
Qed.

(** One pass keeps the sign change, unless the midpoint NPV is a NaN. *)
Lemma bisect_body_sign_change (cash_flows : list float) (tol : float)
    (s s' : bisect_state) :
  (product_bound <=? tol) = true ->
  npv (low s) cash_flows = Ok (npv_low s) ->
  npv (high s) cash_flows = Ok (npv_high s) ->
  opposite_signs (npv_low s) (npv_high s) ->
  (product_bound <=? abs (npv_low s)) = true ->
  bisect_body cash_flows tol s = Ok (inr s') ->
  (exists v, npv (midpoint s) cash_flows = Ok v /\ is_nan v = true)
  \/ (npv (low s') cash_flows = Ok (npv_low s')
      /\ npv (high s') cash_flows = Ok (npv_high s')
      /\ opposite_signs (npv_low s') (npv_high s')
      /\ (product_bound <=? abs (npv_low s')) = true).
Proof.
  intros Hb Hlo Hhi Hop Hal H. unfold bisect_body in H. fold (midpoint s) in H.
  destruct (npv (midpoint s) cash_flows) as [v|e|] eqn:Ev; cbn [bind] in H;
    try discriminate.
  destruct (abs v <? tol) eqn:Et; [discriminate|].
  destruct (is_nan v) eqn:En.
  { left. exists v. split; [reflexivity | exact En]. }
  right.
  pose proof (abs_not_below_tol v tol En Et Hb) as Hav.
  destruct (npv_low s * v <? 0) eqn:Ep; injection H as <-;
    cbn [low high npv_low npv_high].
  - split; [exact Hlo|]. split; [exact Ev|]. split; [|exact Hal].
    exact (mul_neg_opposite _ _ Ep).
  - split; [exact Ev|]. split; [exact Hhi|]. split; [|exact Hav].
    destruct (abs_bound_strict_sign v Hav) as [Hv|Hv];
      destruct Hop as [[HL HH]|[HL HH]].
    + left. split; assumption.
    + exfalso.
      rewrite (mul_opposite_signs_neg (npv_low s) v
                 (or_intror (conj HL Hv)) Hal Hav) in Ep.
      discriminate Ep.
    + exfalso.
      rewrite (mul_opposite_signs_neg (npv_low s) v
                 (or_introl (conj HL Hv)) Hal Hav) in Ep.
      discriminate Ep.
    + right. split; assumption.
Qed.

(** X13. The bisection invariant of the contract holds under these
    conditions: when the two endpoint NPVs are strictly of opposite sign,
    the NPV at [low] and the tolerance are at least [2^-480] in magnitude
    (so that no product of NPVs underflows), then at the start of every
    pass the NPVs at the current [low] and [high] are strictly of opposite
    sign, unless an earlier midpoint NPV was a NaN. *)
Theorem bisection_keeps_sign_change (cash_flows : list float)
    (lo hi tol a b : float) :
  npv lo cash_flows = Ok a ->
  npv hi cash_flows = Ok b ->
  opposite_signs a b ->
  (product_bound <=? abs a) = true ->
  (product_bound <=? tol) = true ->
  forall k s,
    bisect_state_at cash_flows tol k (mk_bisect_state lo hi a b None) = Ok (Some s) ->
    (npv (low s) cash_flows = Ok (npv_low s)
     /\ npv (high s) cash_flows = Ok (npv_high s)
     /\ opposite_signs (npv_low s) (npv_high s))
    \/ (exists j sj v,
          (j < k)%nat
          /\ bisect_state_at cash_flows tol j (mk_bisect_state lo hi a b None)
             = Ok (Some sj)
          /\ npv (midpoint sj) cash_flows = Ok v /\ is_nan v = true).
Proof.
  intros Ha Hb Hop Hal Htol.
  set (init := mk_bisect_state lo hi a b None).
  assert (Hgen : forall k s,
            bisect_state_at cash_flows tol k init = Ok (Some s) ->
            (npv (low s) cash_flows = Ok (npv_low s)
             /\ npv (high s) cash_flows = Ok (npv_high s)
             /\ opposite_signs (npv_low s) (npv_high s)
             /\ (product_bound <=? abs (npv_low s)) = true)
            \/ (exists j sj v,
                  (j < k)%nat
                  /\ bisect_state_at cash_flows tol j init = Ok (Some sj)
                  /\ npv (midpoint sj) cash_flows = Ok v /\ is_nan v = true)).
  { induction k as [|k IH]; intros s Hs.
    - cbn [bisect_state_at] in Hs. injection Hs as <-. left.
      cbn [init low high npv_low npv_high].
      split; [exact Ha|]. split; [exact Hb|]. split; [exact Hop | exact Hal].
    - destruct (bisect_state_at_S cash_flows tol k init s Hs) as (s1 & Hs1 & Hbody).
      destruct (IH s1 Hs1) as [(H1 & H2 & H3 & H4)|(j & sj & v & Hj & Hsj & Hv & Hn)].
      + destruct (bisect_body_sign_change cash_flows tol s1 s Htol H1 H2 H3 H4 Hbody)
          as [(v & Hv & Hn)|Hheld].
        * right. exists k, s1, v. split; [lia|]. split; [exact Hs1|].
          split; [exact Hv | exact Hn].
        * left. exact Hheld.
      + right. exists j, sj, v. split; [lia|]. split; [exact Hsj|].
        split; [exact Hv | exact Hn]. }
  intros k s Hs. destruct (Hgen k s Hs) as [(H1 & H2 & H3 & _)|H].
  - left. split; [exact H1|]. split; [exact H2 | exact H3].
  - right. exact H.
Qed.

Lemma bisection_keeps_sign_change_witness :
  (npv 0.125 [-100; 121] = Ok 7.5555555555555571
   /\ npv 0.25 [-100; 121] = Ok (-3.2000000000000028)
   /\ opposite_signs 7.5555555555555571 (-3.2000000000000028))
  \/ (exists j sj v,
        (j < 3)%nat
        /\ bisect_state_at [-100; 121] default_tol j (mk_bisect_state 0 1 21 (-39.5) None)
           = Ok (Some sj)
        /\ npv (midpoint sj) [-100; 121] = Ok v /\ is_nan v = true).
Proof.
  apply (bisection_keeps_sign_change [-100; 121] 0 1 default_tol 21 (-39.5)
           ltac:(vm_compute; reflexivity) ltac:(vm_compute; reflexivity)
           (or_intror (conj eq_refl eq_refl))
           ltac:(vm_compute; reflexivity) ltac:(vm_compute; reflexivity)
           3 (mk_bisect_state 0.125 0.25 7.5555555555555571
                (-3.2000000000000028) (Some 0.125))).
  vm_compute. reflexivity.
Defined.

(** ** A sign change across the grid is found *)

Lemma sign_change_intervals_nonempty :
  forall npv_values rates,
    length rates = length npv_values ->
    Forall (fun v => (product_bound <=? abs v) = true) npv_values ->
    opposite_signs (hd 0 npv_values) (last npv_values 0) ->
    sign_change_intervals rates npv_values <> [].
Proof.
  induction npv_values as [|v0 vals IH]; intros rates Hlen Hb Hop.
  - exfalso. destruct Hop as [[H _]|[H _]]; discriminate H.
  - destruct vals as [|v1 vals].
    + exfalso. cbn [hd last] in Hop.
      destruct Hop as [[H1 H2]|[H1 H2]]; exact (ltb_zero_asym v0 ltac:(eassumption)
                                                 ltac:(eassumption)).
    + destruct rates as [|r0 [|r1 rates]]; try discriminate Hlen.
      rewrite sign_change_intervals_cons.
      destruct (v0 * v1 <? 0) eqn:Ep; [discriminate|].
      apply IH.
      * simpl in Hlen |- *. lia.
      * inversion Hb; assumption.
      * change (last (v0 :: v1 :: vals) 0) with (last (v1 :: vals) 0) in Hop.
        cbn [hd] in Hop |- *.
        inversion Hb as [|? ? Hb0 Hb']; subst.
        inversion Hb' as [|? ? Hb1 _]; subst.
        destruct (abs_bound_strict_sign v1 Hb1) as [Hv|Hv];
          destruct Hop as [[H0 HL]|[H0 HL]].
        -- left. split; assumption.
        -- exfalso.
           rewrite (mul_opposite_signs_neg v0 v1 (or_intror (conj H0 Hv)) Hb0 Hb1)
             in Ep. discriminate Ep.
        -- exfalso.
           rewrite (mul_opposite_signs_neg v0 v1 (or_introl (conj H0 Hv)) Hb0 Hb1)
             in Ep. discriminate Ep.
        -- right. split; assumption.
Qed.

(** X14. When the NPV curve that [find_all_irrs] returns starts and ends
    with strictly opposite signs, and none of its values is tiny (below
    [2^-480] in magnitude, zero and NaN included), the returned root list
    is not empty: a sign change across the scanned range is never missed. *)
Theorem find_all_irrs_finds_sign_change
    (fuel : nat) (cash_flows : list float) (rate_min rate_max step : float)
    (irrs rates npv_values : list float) :
  find_all_irrs fuel cash_flows rate_min rate_max step = Ok (irrs, rates, npv_values) ->
  Forall (fun v => (product_bound <=? abs v) = true) npv_values ->
  opposite_signs (hd 0 npv_values) (last npv_values 0) ->
  irrs <> [].
Proof.
  intros H Hb Hop.
  destruct (find_all_irrs_Ok _ _ _ _ _ _ _ _ H) as (_ & Hm & Hc).
  pose proof (sign_change_intervals_nonempty npv_values rates
                (eq_sym (mapM_length _ _ _ Hm)) Hb Hop) as Hne.
  pose proof (collect_irrs_length cash_flows _ irrs
                (fun lo hi Hin =>
                   sign_change_intervals_npv (fun r => npv r cash_flows)
                     rates npv_values lo hi Hm Hin) Hc) as Hlen.
  intros ->. simpl in Hlen.
  destruct (sign_change_intervals rates npv_values); [contradiction | discriminate].
Qed.

Lemma find_all_irrs_finds_sign_change_witness :
  [0.1306623935699463] <> [].
Proof.
  apply (find_all_irrs_finds_sign_change 10 [-100; 60; 60] 0 0.25 0.1
           [0.1306623935699463] [0; 0.1; 0.2]
           [20; 4.1322314049586666; -8.3333333333333286]).
  - vm_compute. reflexivity.
  - repeat constructor.
  - right. split; reflexivity.
Defined.

(** ** The product test and the signs of the endpoint NPVs *)

Lemma sign_true_not_gtb_zero (x : float) : sign_is true x -> (0 <? x) = false.
Proof.
  unfold sign_is. rewrite ltb_spec, Prim2SF_zero.
  destruct (Prim2SF x) as [s|[|]| |[|] m e]; cbn; intros H;
    try reflexivity; discriminate H.
Qed.

Lemma mul_pos_same_signs (a b : float) :
  (0 <? a * b) = true -> same_signs a b.
Proof.
  intros H.
  assert (Hno : forall s, sign_is s a -> sign_is (negb s) b -> False).
  { intros s Ha Hb. pose proof (mul_sign s (negb s) a b Ha Hb) as Hm.
    replace (xorb s (negb s)) with true in Hm by (destruct s; reflexivity).
    rewrite (sign_true_not_gtb_zero _ Hm) in H. discriminate. }
  destruct (float_sign_cases a) as [[Ha1 Ha0]|[[Ha Sa]|[Ha Sa]]];
    destruct (float_sign_cases b) as [[Hb1 Hb0]|[[Hb Sb]|[Hb Sb]]];
    try solve [exfalso; apply (Hno true); assumption
              |exfalso; apply (Hno false); assumption].
  - left. split; assumption.
  - right. split; assumption.
Qed.

(** Numbers of the same strict sign, neither of them tiny, have a product
    above zero. *)
Lemma mul_same_signs_pos (a b : float) :
  same_signs a b ->
  (product_bound <=? abs a) = true ->
  (product_bound <=? abs b) = true ->
  (0 <? a * b) = true.
Proof.
  intros Hs Ha Hb.
  pose proof (abs_bound_exponent a) as Ea.
  pose proof (abs_bound_exponent b) as Eb.
  pose proof (Prim2SF_valid a) as Va. pose proof (Prim2SF_valid b) as Vb.
  unfold same_signs in Hs. rewrite !ltb_spec, Prim2SF_zero in Hs.
  rewrite ltb_spec, mul_spec, Prim2SF_zero.
  destruct (Prim2SF a) as [sa|sa| |sa ma ea], (Prim2SF b) as [sb|sb| |sb mb eb];
    try (exfalso; destruct Hs as [[H1 H2]|[H1 H2]];
         first [discriminate H1 | discriminate H2
               |destruct sa; discriminate H1 | destruct sb; discriminate H2]).
  - destruct sa, sb; try reflexivity;
      exfalso; destruct Hs as [[H1 H2]|[H1 H2]]; discriminate.
  - destruct sa, sb; try reflexivity;
      exfalso; destruct Hs as [[H1 H2]|[H1 H2]]; discriminate.
  - destruct sa, sb; try reflexivity;
      exfalso; destruct Hs as [[H1 H2]|[H1 H2]]; discriminate.
  - cbn [valid_binary] in Va, Vb.
    pose proof (SFmul_finite_nonzero sa sb ma mb ea eb Va Vb
                  (Ea _ _ _ eq_refl Ha) (Eb _ _ _ eq_refl Hb)) as Hm.
    assert (Hx : xorb sa sb = false).
    { destruct sa, sb; try reflexivity;
        exfalso; destruct Hs as [[H1 H2]|[H1 H2]]; discriminate. }
    rewrite Hx in Hm.
    destruct (SF64mul (S754_finite sa ma ea) (S754_finite sb mb eb))
      as [s|s| |s m e]; try contradiction; subst s; reflexivity.
Qed.

Lemma eqb_zero_no_strict_sign (a : float) :
  (a =? 0) = true -> (a <? 0) = false /\ (0 <? a) = false.
Proof.
  rewrite eqb_spec, !ltb_spec, Prim2SF_zero.
  destruct (Prim2SF a) as [s|[|]| |[|] m e]; intros H;
    try discriminate H; split; reflexivity.
Qed.

Lemma same_signs_not_tiny (a b : float) :
  same_signs a b -> zero_or_not_tiny a -> zero_or_not_tiny b ->
  (product_bound <=? abs a) = true /\ (product_bound <=? abs b) = true.
Proof.
  intros Hs [Za|Ha] [Zb|Hb];
    try (split; assumption); exfalso;
    try (destruct (eqb_zero_no_strict_sign a Za) as [N1 N2];
         destruct Hs as [[H1 _]|[H1 _]];
         [rewrite N1 in H1 | rewrite N2 in H1]; discriminate H1);
    destruct (eqb_zero_no_strict_sign b Zb) as [N1 N2];
    destruct Hs as [[_ H2]|[_ H2]];
    [rewrite N1 in H2 | rewrite N2 in H2]; discriminate H2.
Qed.

(** X15. When each endpoint NPV is a zero or at least [2^-480] in
    magnitude, so that their product cannot underflow, the bisection
    returns the absent marker exactly when the two NPVs have the same
    strict sign, and it returns a numeric rate only when they are strictly
    of opposite sign or one of them is zero. *)
Theorem irr_bisection_None_iff_same_signs (cash_flows : list float)
    (lo hi tol : float) (max_iter : nat) (a b : float) :
  npv lo cash_flows = Ok a ->
  npv hi cash_flows = Ok b ->
  zero_or_not_tiny a ->
  zero_or_not_tiny b ->
  (irr_bisection_interval cash_flows lo hi tol max_iter = Ok None
   <-> same_signs a b)
  /\ (forall r,
        irr_bisection_interval cash_flows lo hi tol max_iter = Ok (Some r) ->
        opposite_signs a b \/ (a =? 0) = true \/ (b =? 0) = true).
Proof.
  intros Ha Hb Ta Tb.
  assert (Hpos : same_signs a b -> (0 <? a * b) = true).
  { intros Hs. destruct (same_signs_not_tiny a b Hs Ta Tb) as [Ba Bb].
    exact (mul_same_signs_pos a b Hs Ba Bb). }
  split.
  - split.
    + intros H.
      exact (mul_pos_same_signs a b
               (irr_bisection_None_positive _ _ _ _ _ _ _ Ha Hb H)).
    + intros Hs. unfold irr_bisection_interval. rewrite Ha, Hb. cbn [bind].
      rewrite (Hpos Hs). reflexivity.
  - intros r H. unfold irr_bisection_interval in H.
    rewrite Ha, Hb in H. cbn [bind] in H.
    destruct (0 <? a * b) eqn:Ep; [discriminate H|].
    destruct Ta as [Za|Ba]; [right; left; exact Za|].
    destruct Tb as [Zb|Bb]; [right; right; exact Zb|].
    left.
    destruct (abs_bound_strict_sign a Ba) as [Sa|Sa];
      destruct (abs_bound_strict_sign b Bb) as [Sb|Sb].
    + pose proof (Hpos (or_introl (conj Sa Sb))) as Hp. congruence.
    + left. split; assumption.
    + right. split; assumption.
    + pose proof (Hpos (or_intror (conj Sa Sb))) as Hp. congruence.
Qed.

Lemma irr_bisection_None_iff_same_signs_witness :
  (irr_bisection_interval [-100; 60; 60] 0 0.25 default_tol default_max_iter = Ok None
   <-> same_signs 20 (-13.600000000000001))
  /\ (forall r,
        irr_bisection_interval [-100; 60; 60] 0 0.25 default_tol default_max_iter
        = Ok (Some r) ->
        opposite_signs 20 (-13.600000000000001)
        \/ (20 =? 0) = true \/ (-13.600000000000001 =? 0) = true).
Proof.
  apply (irr_bisection_None_iff_same_signs [-100; 60; 60] 0 0.25
           default_tol default_max_iter 20 (-13.600000000000001)).
  - vm_compute. reflexivity.
  - vm_compute. reflexivity.
  - right. reflexivity.
  - right. reflexivity.
Defined.
